(** * FutureUniverseSelectionModel: a shallow embedding

    Source: Algorithm.Framework/Selection/FutureUniverseSelectionModel.py

    The Python class is embedded as Rocq functions over an explicit world
    state (the model instance, the engine object [algorithm] and a log of
    the effects performed).  [CreateUniverses] is a Python generator
    function: it is embedded as a generator state with a [next] function
    that runs the body up to the next [yield]. *)

From Stdlib Require Import ZArith String.
From stdpp Require Import base decidable countable gmap strings list relations.

Local Open Scope Z_scope.

(** ** Engine data types

    The classes [Symbol], [SecurityType], [UniverseSettings], the security
    registry and the subscription service come from [AlgorithmImports]; the
    file under study only uses them. *)

Module SecurityType.
(** Modelled from the spec: the asset-class enumeration of the engine
    (section 3 "assetClass (enum, e.g. Future, Equity, ...)").  The source
    only names [SecurityType.Future]. *)
Inductive t := Base | Equity | Option | Commodity | Forex | Future | Cfd | Crypto.

#[global] Instance eq_dec : EqDecision t.
Proof. solve_decision. Defined.

Definition to_nat (x : t) : nat :=
  match x with
  | Base => 0 | Equity => 1 | Option => 2 | Commodity => 3
  | Forex => 4 | Future => 5 | Cfd => 6 | Crypto => 7
  end%nat.

Definition of_nat (n : nat) : t :=
  match n with
  | 0 => Base | 1 => Equity | 2 => Option | 3 => Commodity
  | 4 => Forex | 5 => Future | 6 => Cfd | _ => Crypto
  end%nat.

#[global] Instance countable : Countable t :=
  inj_countable' to_nat of_nat
    (λ x, match x with
          | Base | Equity | Option | Commodity
          | Forex | Future | Cfd | Crypto => eq_refl
          end).
End SecurityType.

Module SecurityIdentifier.
(** Modelled from the spec: the identifier object behind [symbol.ID].  The
    source reads [ID.Market] only.  [Date] stands for what tells the
    concrete contracts of one root apart (glossary: "all expiries of one
    futures root"); the source never reads it. *)
Record t := mk { Market : string; Date : Z }.

#[global] Instance eq_dec : EqDecision t.
Proof. solve_decision. Defined.

#[global] Instance countable : Countable t :=
  inj_countable' (λ i, (Market i, Date i)) (λ p, mk p.1 p.2)
                 (λ i, match i with mk _ _ => eq_refl end).

(** The date carried by identifiers that [Symbol.Create] builds. *)
Definition DefaultDate : Z := 0.
End SecurityIdentifier.

Module Symbol.
(** Modelled from the spec: the instrument identifier (section 3,
    InstrumentIdentifier: asset class, market, raw value, canonical flag;
    two identifiers are equal iff all attributes match).  Field names are
    the attributes the source reads: [symbol.SecurityType],
    [symbol.ID.Market], [symbol.Value], [symbol.IsCanonical()]. *)
Record t := mk {
  SecurityType : SecurityType.t;
  ID : SecurityIdentifier.t;
  Value : string;
  IsCanonical : bool
}.

#[global] Instance eq_dec : EqDecision t.
Proof. solve_decision. Defined.

#[global] Instance countable : Countable t :=
  inj_countable'
    (λ s, (SecurityType s, ID s, Value s, IsCanonical s))
    (λ p, mk p.1.1.1 p.1.1.2 p.1.2 p.2)
    (λ s, match s with mk _ _ _ _ => eq_refl end).

(** Modelled from the spec: [Symbol.Create(ticker, securityType, market,
    alias)] as the source calls it on line 71 (section 4.2: "constructs a
    new identifier sharing market and asset class, with rawValue rewritten
    to the canonical form and isCanonical = true").  The raw value of the
    result is the alias. *)
Definition Create (ticker : string) (securityType : SecurityType.t)
                  (market : string) (alias : string) : t :=
  {| SecurityType := securityType;
     ID := {| SecurityIdentifier.Market := market;
              SecurityIdentifier.Date := SecurityIdentifier.DefaultDate |};
     Value := alias;
     IsCanonical := true |}.
End Symbol.

Module Resolution.
(** Modelled from the spec: the data granularity of a subscription
    (section 3, UniverseSettings.resolution). *)
Inductive t := Tick | Second | Minute | Hour | Daily.
End Resolution.

Module UniverseSettings.
(** Modelled from the spec: section 3, UniverseSettings.  The source reads
    [Resolution], [FillForward], [ExtendedMarketHours] and [Leverage] and
    passes them on; [Leverage] is a number it never computes with. *)
Record t := mk {
  Resolution : Resolution.t;
  Leverage : Z;
  FillForward : bool;
  ExtendedMarketHours : bool;
  MinimumTimeInUniverse : Z
}.
End UniverseSettings.

(** The arguments of [SubscriptionDataConfigService.Add] on lines 95-100. *)
Record SubscriptionDataConfig := {
  cfgType : string;
  cfgSymbol : Symbol.t;
  cfgResolution : Resolution.t;
  cfgFillForward : bool;
  cfgExtendedMarketHours : bool;
  cfgIsFilteredSubscription : bool
}.

(** What a contract filter receives and returns: the contracts of a chain. *)
Definition FutureFilterUniverse : Type := list Symbol.t.

Module Security.
(** Modelled from the spec: a chain security held by the registry
    (section 3, ChainSecurity).  [Key] is what line 76 compares with the
    symbol; [ContractFilter] is the slot that [SetFilter] writes. *)
Record t := mk {
  Key : Symbol.t;
  Config : SubscriptionDataConfig;
  Leverage : Z;
  SeedInitialData : bool;
  ContractFilter : option (FutureFilterUniverse → FutureFilterUniverse)
}.

Definition SetFilter (f : FutureFilterUniverse → FutureFilterUniverse) (s : t) : t :=
  {| Key := Key s; Config := Config s; Leverage := Leverage s;
     SeedInitialData := SeedInitialData s; ContractFilter := Some f |}.
End Security.

Module QCAlgorithm.
(** Modelled from the spec: the engine object passed as [algorithm]
    (section 4.3 "engine, providing current time, a security registry, a
    subscription-configuration service, and default settings").
    [Securities] lists the registry in enumeration order; a security object
    is referred to by its position, which never changes because the registry
    only grows at its end. *)
Record t := mk {
  UtcTime : Z;
  UniverseSettings : UniverseSettings.t;
  Securities : list Security.t;
  SubscriptionDataConfigs : list SubscriptionDataConfig
}.
End QCAlgorithm.

(** [FuturesChainUniverse(futureChain, settings)], line 85: the universe
    refers to the chain security object and carries the settings. *)
Record FuturesChainUniverse := {
  Future : nat;
  Settings : UniverseSettings.t
}.

(** ** Exceptions and results *)

Inductive Exception :=
| ValueError (msg : string)       (* raised by this file, lines 51 and 66 *)
| OverflowError (msg : string)    (* raised by the sum of line 46 *)
| OtherError (msg : string).      (* anything a selection rule may raise *)

Inductive Result (A : Type) :=
| Ok (a : A)
| Raise (e : Exception).
Arguments Ok {A} a.
Arguments Raise {A} e.

(** What iterating the result of a selection rule gives: symbols one after
    the other, until the iterable is exhausted or raises. *)
Inductive Selection :=
| Exhausted
| Item (futureSymbol : Symbol.t) (rest : Selection)
| Fails (e : Exception).

Fixpoint returning (symbols : list Symbol.t) : Selection :=
  match symbols with
  | [] => Exhausted
  | s :: rest => Item s (returning rest)
  end.

(** ** The model instance and the world *)

(** The attributes set by [__init__], lines 30-34. *)
Record FutureUniverseSelectionModel := {
  nextRefreshTimeUtc : Z;
  refreshInterval : Z;
  futureChainSymbolSelector : Z → Selection;
  universeSettings : option UniverseSettings.t
}.

(** Timestamps are microseconds since [datetime.min]; durations are
    microseconds. *)
Definition datetime_min : Z := 0.
Definition datetime_max : Z := 315537897599999999.
Definition is_datetime (t : Z) : Prop := datetime_min ≤ t ≤ datetime_max.

#[global] Instance is_datetime_dec t : Decision (is_datetime t).
Proof. unfold is_datetime. apply _. Defined.

(** What [datetime + timedelta] raises when the sum is not a datetime. *)
Definition overflow : Exception := OverflowError "date value out of range".

(** [datetime + timedelta], as on line 46: the sum, or [OverflowError] when
    it falls outside [datetime.min, datetime.max]. *)
Definition datetime_add (t d : Z) : Result Z :=
  if decide (is_datetime (t + d)) then Ok (t + d) else Raise overflow.

(** Lines 21-34. *)
Definition __init__ (refreshInterval : Z)
    (futureChainSymbolSelector : Z → Selection)
    (universeSettings : option UniverseSettings.t) : FutureUniverseSelectionModel :=
  {| nextRefreshTimeUtc := datetime_min;
     refreshInterval := refreshInterval;
     futureChainSymbolSelector := futureChainSymbolSelector;
     universeSettings := universeSettings |}.

(** The effects the file performs, in the order they happen. *)
Inductive Event :=
| SetNextRefreshTimeUtc (v : Z)            (* line 46 *)
| SelectorCalled (utcTime : Z)             (* line 49 *)
| ConfigAdded (symbol : Symbol.t)          (* lines 95-100 *)
| SecurityCreated (symbol : Symbol.t)      (* line 102 *)
| FilterSet (futureChain : nat).           (* line 83 *)

Record World := {
  self : FutureUniverseSelectionModel;
  algorithm : QCAlgorithm.t;
  trace : list Event
}.

Definition log (e : Event) (w : World) : World :=
  {| self := self w; algorithm := algorithm w; trace := trace w ++ [e] |}.

Definition with_algorithm (a : QCAlgorithm.t) (w : World) : World :=
  {| self := self w; algorithm := a; trace := trace w |}.

Definition with_nextRefreshTimeUtc (v : Z) (w : World) : World :=
  {| self := {| nextRefreshTimeUtc := v;
                refreshInterval := refreshInterval (self w);
                futureChainSymbolSelector := futureChainSymbolSelector (self w);
                universeSettings := universeSettings (self w) |};
     algorithm := algorithm w; trace := trace w |}.

(** Statements of the file run in a state-and-exception monad: what was
    done before an exception stays done. *)
Definition M (A : Type) : Type := World → Result A * World.

#[global] Instance M_ret : MRet M := λ A a w, (Ok a, w).
#[global] Instance M_bind : MBind M := λ A B f m w,
  match m w with
  | (Ok a, w') => f a w'
  | (Raise e, w') => (Raise e, w')
  end.

Definition lift {A} (r : Result A) : M A := λ w, (r, w).
Definition gets {A} (f : World → A) : M A := λ w, (Ok (f w), w).

(** ** Engine services *)

(** Modelled from the spec: [SubscriptionDataConfigService.Add] (section
    4.4 "requests a new subscription configuration from the external
    service"): the configuration is recorded and returned. *)
Definition SubscriptionDataConfigService_Add (dataType : string)
    (symbol : Symbol.t) (resolution : Resolution.t)
    (fillForward extendedMarketHours isFilteredSubscription : bool)
    : M SubscriptionDataConfig := λ w,
  let config := {| cfgType := dataType; cfgSymbol := symbol;
                   cfgResolution := resolution; cfgFillForward := fillForward;
                   cfgExtendedMarketHours := extendedMarketHours;
                   cfgIsFilteredSubscription := isFilteredSubscription |} in
  let a := algorithm w in
  (Ok config,
   log (ConfigAdded symbol)
     (with_algorithm
        (QCAlgorithm.mk (QCAlgorithm.UtcTime a) (QCAlgorithm.UniverseSettings a)
           (QCAlgorithm.Securities a)
           (QCAlgorithm.SubscriptionDataConfigs a ++ [config])) w)).

(** Modelled from the spec: [Securities.CreateSecurity] (section 4.4 "asks
    the registry to materialize a new security from that configuration";
    section 5 "insertion"): a new security object keyed by the symbol
    enters the registry, with no filter yet, and is returned. *)
Definition Securities_CreateSecurity (symbol : Symbol.t)
    (config : SubscriptionDataConfig) (leverage : Z) (seedInitialData : bool)
    : M nat := λ w,
  let a := algorithm w in
  let security := Security.mk symbol config leverage seedInitialData None in
  (Ok (length (QCAlgorithm.Securities a)),
   log (SecurityCreated symbol)
     (with_algorithm
        (QCAlgorithm.mk (QCAlgorithm.UtcTime a) (QCAlgorithm.UniverseSettings a)
           (QCAlgorithm.Securities a ++ [security])
           (QCAlgorithm.SubscriptionDataConfigs a)) w)).

(** Modelled from the spec: [futureChain.SetFilter(f)] writes the filter
    slot of the security object (section 4.5, the hook's attachment point). *)
Definition SetFilter (futureChain : nat)
    (f : FutureFilterUniverse → FutureFilterUniverse) : M unit := λ w,
  let a := algorithm w in
  (Ok tt,
   log (FilterSet futureChain)
     (with_algorithm
        (QCAlgorithm.mk (QCAlgorithm.UtcTime a) (QCAlgorithm.UniverseSettings a)
           (alter (Security.SetFilter f) futureChain (QCAlgorithm.Securities a))
           (QCAlgorithm.SubscriptionDataConfigs a)) w)).

(** ** The methods of the class *)

(** Lines 36-38. *)
Definition GetNextRefreshTimeUtc : M Z :=
  gets (λ w, nextRefreshTimeUtc (self w)).

(** Lines 104-107. *)
Definition Filter (self : FutureUniverseSelectionModel)
    (filter : FutureFilterUniverse) : FutureFilterUniverse :=
  filter.

(** Lines 68-71: rewrite non-canonical symbols to be canonical. *)
Definition canonical (symbol : Symbol.t) : Symbol.t :=
  let market := SecurityIdentifier.Market (Symbol.ID symbol) in
  if negb (Symbol.IsCanonical symbol)
  then Symbol.Create (Symbol.Value symbol) SecurityType.Future market
                     ("/" +:+ Symbol.Value symbol)
  else symbol.

(** Lines 65-71: the asset-class guard followed by the rewrite. *)
Definition Canonicalize (symbol : Symbol.t) : Result Symbol.t :=
  if decide (Symbol.SecurityType symbol ≠ SecurityType.Future)
  then Raise (ValueError "CreateFutureChain requires an future symbol.")
  else Ok (canonical symbol).

(** Lines 87-102. *)
Definition CreateFutureChainSecurity (symbol : Symbol.t)
    (settings : UniverseSettings.t) : M nat :=
  config ← SubscriptionDataConfigService_Add "ZipEntryName" symbol
              (UniverseSettings.Resolution settings)
              (UniverseSettings.FillForward settings)
              (UniverseSettings.ExtendedMarketHours settings)
              false;
  Securities_CreateSecurity symbol config (UniverseSettings.Leverage settings) false.

(** Line 76: the registry entries whose key is the symbol, each with the
    position that identifies the object.  The source reads [Key] on an entry
    and uses the entry found as the chain security (lines 80 and 83). *)
Definition securities_keyed (symbol : Symbol.t) (registry : list Security.t)
    : list (nat * Security.t) :=
  filter (λ s, Security.Key s.2 = symbol) (imap pair registry).

(** Lines 58-85. *)
Definition CreateFutureChain (symbol : Symbol.t) : M FuturesChainUniverse :=
  symbol ← lift (Canonicalize symbol);
  settings ← gets (λ w, match universeSettings (self w) with
                        | Some s => s
                        | None => QCAlgorithm.UniverseSettings (algorithm w)
                        end);
  securities ← gets (λ w, securities_keyed symbol (QCAlgorithm.Securities (algorithm w)));
  futureChain ← match securities with
                | [] => CreateFutureChainSecurity symbol settings
                | s :: _ => mret s.1
                end;
  this ← gets self;
  _ ← SetFilter futureChain (Filter this);
  mret {| Future := futureChain; Settings := settings |}.

(** ** CreateUniverses, lines 40-56: a generator *)

(** Where a generator object stands: not started, suspended at the [yield]
    of line 56 with its local [uniqueSymbols] and what is left of the
    iteration of line 49, or finished. *)
Inductive Generator :=
| Created
| Suspended (uniqueSymbols : gset Symbol.t) (pending : Selection)
| Finished.

(** What [next(generator)] gives. *)
Inductive Outcome :=
| Yield (universe : FuturesChainUniverse)
| StopIteration
| Raised (e : Exception).

(** Lines 49-56: the [for] loop, run until it yields, ends or raises. *)
Fixpoint loop (uniqueSymbols : gset Symbol.t) (pending : Selection) (w : World)
    : Outcome * Generator * World :=
  match pending with
  | Exhausted => (StopIteration, Finished, w)
  | Fails e => (Raised e, Finished, w)
  | Item futureSymbol rest =>
      if decide (Symbol.SecurityType futureSymbol ≠ SecurityType.Future)
      then (Raised (ValueError "futureChainSymbolSelector must return future symbols."),
            Finished, w)
      else if decide (futureSymbol ∉ uniqueSymbols)
      then let uniqueSymbols := {[futureSymbol]} ∪ uniqueSymbols in
           match CreateFutureChain futureSymbol w with
           | (Ok universe, w') => (Yield universe, Suspended uniqueSymbols rest, w')
           | (Raise e, w') => (Raised e, Finished, w')
           end
      else loop uniqueSymbols rest w
  end.

(** Calling the generator function runs nothing of its body: it returns a
    fresh generator object. *)
Definition CreateUniverses : World → Generator * World :=
  λ w, (Created, w).

(** [next(generator)]: the first call enters the body at line 46; a later
    call resumes after the [yield].  When the sum of line 46 overflows, the
    exception leaves the body before the assignment and before the selector
    is called, and the generator is finished. *)
Definition next (g : Generator) (w : World) : Outcome * Generator * World :=
  match g with
  | Created =>
      let utcTime := QCAlgorithm.UtcTime (algorithm w) in
      match datetime_add utcTime (refreshInterval (self w)) with
      | Raise e => (Raised e, Finished, w)
      | Ok v =>
          let w := log (SetNextRefreshTimeUtc v) (with_nextRefreshTimeUtc v w) in
          let w := log (SelectorCalled utcTime) w in
          loop ∅ (futureChainSymbolSelector (self w) utcTime) w
      end
  | Suspended uniqueSymbols pending => loop uniqueSymbols pending w
  | Finished => (StopIteration, Finished, w)
  end.

(** The host iterating the generator, at most [n] calls of [next]: the
    universes received, the exception that ended the iteration if one did,
    the generator and the world afterwards. *)
Record Run := {
  universes : list FuturesChainUniverse;
  error : option Exception;
  generator : Generator;
  world : World
}.

Fixpoint iterate (n : nat) (g : Generator) (w : World) : Run :=
  match n with
  | O => {| universes := []; error := None; generator := g; world := w |}
  | S n =>
      match next g w with
      | (Yield u, g', w') =>
          let r := iterate n g' w' in
          {| universes := u :: universes r; error := error r;
             generator := generator r; world := world r |}
      | (StopIteration, g', w') =>
          {| universes := []; error := None; generator := g'; world := w' |}
      | (Raised e, g', w') =>
          {| universes := []; error := Some e; generator := g'; world := w' |}
      end
  end.

(** The chain symbol of a universe: the key of the security it refers to. *)
Definition universe_symbol (w : World) (u : FuturesChainUniverse) : option Symbol.t :=
  Security.Key <$> QCAlgorithm.Securities (algorithm w) !! Future u.

(** ** Vocabulary of the statements *)

Definition registry (w : World) : list Security.t :=
  QCAlgorithm.Securities (algorithm w).

Definition keys (w : World) : list Symbol.t := Security.Key <$> registry w.

Definition configs (w : World) : list SubscriptionDataConfig :=
  QCAlgorithm.SubscriptionDataConfigs (algorithm w).

Definition utc (w : World) : Z := QCAlgorithm.UtcTime (algorithm w).

(** The sum of line 46, and whether it is a datetime (line 46 does not
    raise). *)
Definition due (w : World) : Z := utc w + refreshInterval (self w).
Definition schedulable (w : World) : Prop := is_datetime (due w).

(** Line 74: the settings of the model if it has some, else the engine's. *)
Definition effective_settings (w : World) : UniverseSettings.t :=
  match universeSettings (self w) with
  | Some s => s
  | None => QCAlgorithm.UniverseSettings (algorithm w)
  end.

Definition is_future (s : Symbol.t) : Prop :=
  Symbol.SecurityType s = SecurityType.Future.

#[global] Instance is_future_dec s : Decision (is_future s) :=
  decide (Symbol.SecurityType s = SecurityType.Future).

(** The message of line 51. *)
Definition rejection : Exception :=
  ValueError "futureChainSymbolSelector must return future symbols.".

(** The first position of a key in a list of keys. *)
Definition position (c : Symbol.t) (ks : list Symbol.t) : option nat :=
  fst <$> list_find (λ k, k = c) ks.

(** The registry only grows at its end, keys stay distinct when they were,
    and the log only grows. *)
Definition extends (w w' : World) : Prop :=
  keys w `prefix_of` keys w'
  ∧ (NoDup (keys w) → NoDup (keys w'))
  ∧ trace w `prefix_of` trace w'.

(** The symbols of a list that the loop of lines 49-56 lets through, given
    the symbols already in [uniqueSymbols]: the first occurrence of each. *)
Fixpoint first_seen (U : gset Symbol.t) (l : list Symbol.t) : list Symbol.t :=
  match l with
  | [] => []
  | s :: l => if decide (s ∈ U) then first_seen U l
              else s :: first_seen ({[s]} ∪ U) l
  end.

(** A selection that gives the symbols of a list and goes on as [tail]. *)
Fixpoint prepend (symbols : list Symbol.t) (tail : Selection) : Selection :=
  match symbols with
  | [] => tail
  | s :: rest => Item s (prepend rest tail)
  end.

(** [CreateFutureChain] called on each symbol of a list in turn. *)
Fixpoint chains (l : list Symbol.t) (w : World) : list FuturesChainUniverse * World :=
  match l with
  | [] => ([], w)
  | s :: l =>
      match CreateFutureChain s w with
      | (Ok u, w') => let (us, w'') := chains l w' in (u :: us, w'')
      | (Raise _, w') => ([], w')
      end
  end.

Definition at_time (t : Z) (a : QCAlgorithm.t) : QCAlgorithm.t :=
  QCAlgorithm.mk t (QCAlgorithm.UniverseSettings a) (QCAlgorithm.Securities a)
                 (QCAlgorithm.SubscriptionDataConfigs a).

(** What may happen to the world between two resolutions of a symbol: the
    host advances a generator (of this or of a later refresh cycle), calls
    [CreateFutureChain] itself, or the engine clock moves. *)
Inductive step : World → World → Prop :=
| step_next g w : step w (next g w).2
| step_chain s w : step w (CreateFutureChain s w).2
| step_clock t w : step w (with_algorithm (at_time t (algorithm w)) w).

Definition evolves : World → World → Prop := rtc step.

(** A call of [CreateUniverses] whose generator the host then advances at
    most [n] times. *)
Definition advance (n : nat) (w : World) : Run :=
  iterate n (CreateUniverses w).1 (CreateUniverses w).2.

(** A refresh cycle that ends on the rejection of line 51 after the symbols
    of [before] went through the loop. *)
Definition rejected_after (w : World) (before : list Symbol.t) (n : nat) : Prop :=
  let r := advance n w in
  error r = Some rejection
  ∧ generator r = Finished
  ∧ universe_symbol (world r) <$> universes r
    = Some ∘ canonical <$> first_seen ∅ before
  ∧ (before = [] → universes r = [] ∧ registry (world r) = registry w).

(** ** Sample data *)

Definition future_contract (root : string) (expiry : Z) : Symbol.t :=
  Symbol.mk SecurityType.Future (SecurityIdentifier.mk "CME" expiry) root false.

Definition future_chain (root : string) : Symbol.t :=
  Symbol.Create root SecurityType.Future "CME" ("/" +:+ root).

Definition equity (ticker : string) : Symbol.t :=
  Symbol.mk SecurityType.Equity (SecurityIdentifier.mk "USA" 0) ticker false.

Definition minute_settings : UniverseSettings.t :=
  UniverseSettings.mk Resolution.Minute 1 true false 0.

Definition one_day : Z := 86400000000.

(** A model just constructed, in an engine with an empty registry at time [t]. *)
Definition fresh_world (refreshInterval : Z) (selector : Z → Selection) (t : Z) : World :=
  {| self := __init__ refreshInterval selector None;
     algorithm := QCAlgorithm.mk t minute_settings [] [];
     trace := [] |}.

(** A chain security already in the registry, with no filter attached. *)
Definition registered (symbol : Symbol.t) : Security.t :=
  Security.mk symbol
    {| cfgType := "ZipEntryName"; cfgSymbol := symbol;
       cfgResolution := Resolution.Minute; cfgFillForward := true;
       cfgExtendedMarketHours := false; cfgIsFilteredSubscription := false |}
    1 false None.

(** A refresh cycle that ends on the overflow of line 46: however far the
    host advances the generator, nothing is yielded and the world is as it
    was; the first advance raises [OverflowError] and finishes the
    generator. *)
Definition ends_on_overflow (w : World) : Prop :=
  ∀ n, universes (advance n w) = []
       ∧ world (advance n w) = w
       ∧ ((0 < n)%nat → error (advance n w) = Some overflow
                        ∧ generator (advance n w) = Finished).

(** [timedelta.max], in microseconds. *)
Definition timedelta_max : Z := 86399999999999999999.

(** A new model whose refresh interval is [timedelta.max]: line 46
    overflows at any engine time. *)
Definition overflowing_world (selector : Z → Selection) : World :=
  fresh_world timedelta_max selector 1000.

(** ** Vocabulary of the further properties *)

(** Two states of one security object that differ at most in the filter. *)
Definition same_security (sec sec' : Security.t) : Prop :=
  Security.Key sec' = Security.Key sec
  ∧ Security.Config sec' = Security.Config sec
  ∧ Security.Leverage sec' = Security.Leverage sec
  ∧ Security.SeedInitialData sec' = Security.SeedInitialData sec.

(** What the file leaves alone: the securities and configurations that
    exist, the engine's default settings and the model's own parameters; and
    securities and configurations are added together. *)
Definition keeps (w w' : World) : Prop :=
  (∀ j sec, registry w !! j = Some sec →
            ∃ sec', registry w' !! j = Some sec' ∧ same_security sec sec')
  ∧ configs w `prefix_of` configs w'
  ∧ (length (configs w') + length (registry w)
     = length (configs w) + length (registry w'))%nat
  ∧ QCAlgorithm.UniverseSettings (algorithm w')
    = QCAlgorithm.UniverseSettings (algorithm w)
  ∧ refreshInterval (self w') = refreshInterval (self w)
  ∧ futureChainSymbolSelector (self w') = futureChainSymbolSelector (self w)
  ∧ universeSettings (self w') = universeSettings (self w).

(** The configuration lines 95-100 ask for, for a symbol under given
    settings. *)
Definition chain_config (symbol : Symbol.t) (settings : UniverseSettings.t)
    : SubscriptionDataConfig :=
  {| cfgType := "ZipEntryName"; cfgSymbol := symbol;
     cfgResolution := UniverseSettings.Resolution settings;
     cfgFillForward := UniverseSettings.FillForward settings;
     cfgExtendedMarketHours := UniverseSettings.ExtendedMarketHours settings;
     cfgIsFilteredSubscription := false |}.



(** The world once lines 46 and 49 have run: the schedule is updated and
    the selector has been called. *)
Definition started (w : World) : World :=
  log (SelectorCalled (utc w))
    (log (SetNextRefreshTimeUtc (utc w + refreshInterval (self w)))
       (with_nextRefreshTimeUtc (utc w + refreshInterval (self w)) w)).

(** A world with the ES chain security registered, without a filter, and a
    selector that returns a contract of that chain. *)
Definition es_registered_world : World :=
  {| self := __init__ one_day (λ _, returning [future_contract "ES" 20251219]) None;
     algorithm := QCAlgorithm.mk 1000 minute_settings [registered (future_chain "ES")] [];
     trace := [] |}.

(** A new model whose selector returns a contract of ES and one of NQ. *)
Definition two_chains_world : World :=
  fresh_world one_day
    (λ _, returning [future_contract "ES" 20251219; future_contract "NQ" 20251219])
    1000.

Ltac guard_passes :=
  rewrite decide_False by (let H := fresh in intros H; by apply H).

(** * Properties *)

(** ** The registry lookup of line 76 *)

Lemma head_filter_imap (c : Symbol.t) (l : list Security.t) (k : nat) :
  head (filter (λ s : nat * Security.t, Security.Key s.2 = c)
               (imap (λ i x, (k + i, x))%nat l))
  = prod_map (plus k) id <$> list_find (λ s, Security.Key s = c) l.
Proof.
  revert k. induction l as [|x l IH]; intros k; [done|].
  cbn [imap list_find]. rewrite filter_cons. cbn [snd].
  destruct (decide (Security.Key x = c)) as [Hx|Hx].
  - cbn. by rewrite Nat.add_0_r.
  - rewrite (imap_ext _ (λ i x, (S k + i, x))%nat).
    2:{ intros i y _. cbn. f_equal. lia. }
    rewrite IH. destruct (list_find _ l) as [[i y]|]; cbn; [|done].
    do 2 f_equal. lia.
Qed.

(** [securities[0]], when there is one, is the first entry with that key. *)
Lemma securities_keyed_head c l :
  head (securities_keyed c l) = list_find (λ s, Security.Key s = c) l.
Proof.
  unfold securities_keyed.
  rewrite (imap_ext pair (λ i x, (0 + i, x))%nat) by done.
  rewrite head_filter_imap. destruct (list_find _ l) as [[i y]|]; done.
Qed.

Lemma list_find_key c (l : list Security.t) :
  fst <$> list_find (λ x, Security.Key x = c) l
  = fst <$> list_find (λ k, k = c) (Security.Key <$> l).
Proof.
  rewrite list_find_fmap. unfold compose.
  by destruct (list_find _ l) as [[i x]|].
Qed.

Lemma keys_alter_SetFilter f i (l : list Security.t) :
  Security.Key <$> alter (Security.SetFilter f) i l = Security.Key <$> l.
Proof.
  rewrite (list_fmap_alter _ _ id); [by apply list_alter_id|].
  by apply Forall_forall.
Qed.

Lemma position_None c ks : position c ks = None ↔ c ∉ ks.
Proof.
  unfold position. rewrite fmap_None, list_find_None, Forall_forall.
  split; [intros H Hc; by apply (H c)|intros H x Hx ->; done].
Qed.

Lemma position_Some c ks i : position c ks = Some i → ks !! i = Some c.
Proof.
  unfold position. intros ([j x] & Hf & [= ->])%fmap_Some.
  apply list_find_Some in Hf as (Hl & -> & _). done.
Qed.

Lemma position_app_l c ks ks' i :
  position c ks = Some i → position c (ks ++ ks') = Some i.
Proof.
  unfold position. intros ([j x] & Hf & [= ->])%fmap_Some.
  by erewrite list_find_app_l by done.
Qed.

Lemma position_snoc c ks : c ∉ ks → position c (ks ++ [c]) = Some (length ks).
Proof.
  intros Hc%position_None. unfold position in *.
  apply fmap_None in Hc. rewrite list_find_app_r by done.
  cbn. by rewrite decide_True.
Qed.

Lemma universe_symbol_keys w u : universe_symbol w u = keys w !! Future u.
Proof. unfold universe_symbol, keys, registry. by rewrite list_lookup_fmap. Qed.

(** ** CreateFutureChain, case by case *)

Lemma CreateFutureChain_reject s w :
  Symbol.SecurityType s ≠ SecurityType.Future →
  CreateFutureChain s w
  = (Raise (ValueError "CreateFutureChain requires an future symbol."), w).
Proof.
  intros Hs. unfold CreateFutureChain, mbind, M_bind, lift, Canonicalize.
  by rewrite decide_True.
Qed.

(** The security exists: line 80, then line 83. *)
Lemma CreateFutureChain_resolve s w i sec :
  is_future s →
  list_find (λ x, Security.Key x = canonical s) (registry w) = Some (i, sec) →
  ∃ w', CreateFutureChain s w
        = (Ok {| Future := i; Settings := effective_settings w |}, w')
    ∧ registry w' = alter (Security.SetFilter (Filter (self w))) i (registry w)
    ∧ configs w' = configs w
    ∧ self w' = self w ∧ utc w' = utc w
    ∧ trace w' = trace w ++ [FilterSet i].
Proof.
  intros Hs Hfind. rewrite <- securities_keyed_head in Hfind.
  unfold CreateFutureChain, mbind, M_bind, lift, gets, Canonicalize.
  guard_passes. cbn. unfold registry in Hfind.
  destruct (securities_keyed _ _) as [|[j y] rest]; [done|].
  cbn in Hfind. injection Hfind as -> ->. cbn.
  eexists. split; [reflexivity|]. done.
Qed.

(** The security does not exist: line 78, then line 83. *)
Lemma CreateFutureChain_create s w :
  is_future s →
  list_find (λ x, Security.Key x = canonical s) (registry w) = None →
  ∃ w' config,
    CreateFutureChain s w
    = (Ok {| Future := length (registry w); Settings := effective_settings w |}, w')
    ∧ registry w'
      = registry w ++ [Security.mk (canonical s) config
                         (UniverseSettings.Leverage (effective_settings w)) false
                         (Some (Filter (self w)))]
    ∧ configs w' = configs w ++ [config]
    ∧ cfgSymbol config = canonical s
    ∧ self w' = self w ∧ utc w' = utc w
    ∧ trace w' = trace w ++ [ConfigAdded (canonical s); SecurityCreated (canonical s);
                             FilterSet (length (registry w))].
Proof.
  intros Hs Hfind. rewrite <- securities_keyed_head in Hfind.
  unfold CreateFutureChain, mbind, M_bind, lift, gets, Canonicalize.
  guard_passes. cbn. unfold registry in Hfind.
  destruct (securities_keyed _ _) as [|[j y] rest]; [|done].
  cbn. eexists _, _. split; [reflexivity|]. cbn.
  unfold registry, configs, utc, effective_settings. cbn.
  split_and!; try done.
  - rewrite alter_app_r_alt by lia. by rewrite Nat.sub_diag.
  - by rewrite <- !app_assoc.
Qed.

(** Both cases at once, in terms of the keys of the registry. *)
Lemma CreateFutureChain_Future s w :
  is_future s →
  ∃ u w',
    CreateFutureChain s w = (Ok u, w')
    ∧ Settings u = effective_settings w
    ∧ self w' = self w ∧ utc w' = utc w
    ∧ position (canonical s) (keys w') = Some (Future u)
    ∧ (∃ sec, registry w' !! Future u = Some sec
              ∧ Security.Key sec = canonical s
              ∧ Security.ContractFilter sec = Some (Filter (self w)))
    ∧ ((canonical s ∈ keys w ∧ keys w' = keys w ∧ configs w' = configs w
        ∧ trace w' = trace w ++ [FilterSet (Future u)])
       ∨ ((canonical s ∉ keys w) ∧ keys w' = keys w ++ [canonical s]
          ∧ length (configs w') = S (length (configs w))
          ∧ Future u = length (registry w)
          ∧ trace w' = trace w ++ [ConfigAdded (canonical s);
                                   SecurityCreated (canonical s);
                                   FilterSet (Future u)])).
Proof.
  intros Hs.
  destruct (list_find (λ x, Security.Key x = canonical s) (registry w))
    as [[i sec]|] eqn:Hfind.
  - destruct (CreateFutureChain_resolve s w i sec Hs Hfind)
      as (w' & -> & Hreg & Hcfg & Hself & Hutc & Htr).
    assert (Hkeys : keys w' = keys w).
    { unfold keys. rewrite Hreg. apply keys_alter_SetFilter. }
    assert (Hpos : position (canonical s) (keys w) = Some i).
    { unfold position, keys. rewrite <- list_find_key, Hfind. done. }
    apply list_find_Some in Hfind as (Hl & Hk & _).
    eexists _, w'. split; [reflexivity|]. cbn.
    split_and!; try done.
    + by rewrite Hkeys.
    + exists (Security.SetFilter (Filter (self w)) sec).
      rewrite Hreg, list_lookup_alter_eq, Hl. done.
    + left. split_and!; try done.
      apply position_Some in Hpos. by eapply list_elem_of_lookup_2.
  - destruct (CreateFutureChain_create s w Hs Hfind)
      as (w' & config & -> & Hreg & Hcfg & Hsym & Hself & Hutc & Htr).
    assert (Hnot : canonical s ∉ keys w).
    { apply position_None. unfold position, keys.
      by rewrite <- list_find_key, Hfind. }
    assert (Hkeys : keys w' = keys w ++ [canonical s]).
    { unfold keys. rewrite Hreg, fmap_app. done. }
    eexists _, w'. split; [reflexivity|]. cbn.
    split_and!; try done.
    + rewrite Hkeys, position_snoc by done. unfold keys. by rewrite length_fmap.
    + eexists. rewrite Hreg, lookup_app_r, Nat.sub_diag by lia. done.
    + right. split_and!; try done.
      rewrite Hcfg, length_app. cbn. lia.
Qed.

Lemma CreateFutureChain_resolved s w i :
  is_future s → position (canonical s) (keys w) = Some i →
  ∃ u w', CreateFutureChain s w = (Ok u, w')
          ∧ Future u = i ∧ universe_symbol w' u = Some (canonical s)
          ∧ keys w' = keys w ∧ configs w' = configs w.
Proof.
  intros Hs Hpos.
  destruct (CreateFutureChain_Future s w Hs)
    as (u & w' & Hc & _ & _ & _ & Hpos' & _ & Hcase).
  exists u, w'. rewrite universe_symbol_keys.
  destruct Hcase as [(_ & Hk & Hcfg & _)|(Hnot & _)].
  - rewrite Hk in *. split_and!; try done; [congruence|by apply position_Some].
  - apply position_None in Hnot. congruence.
Qed.

(** ** What every step preserves *)

Lemma extends_refl w : extends w w.
Proof. by split_and!. Qed.

Lemma extends_trans w1 w2 w3 : extends w1 w2 → extends w2 w3 → extends w1 w3.
Proof.
  intros (K12 & N12 & T12) (K23 & N23 & T23).
  split_and!; [by etrans|auto|by etrans].
Qed.

Lemma CreateFutureChain_extends s w r w' :
  CreateFutureChain s w = (r, w') →
  extends w w' ∧ self w' = self w ∧ utc w' = utc w.
Proof.
  intros Hrun. destruct (decide (is_future s)) as [Hs|Hs].
  - destruct (CreateFutureChain_Future s w Hs)
      as (u & w1 & Heq & _ & Hself & Hutc & _ & _ & Hcase).
    rewrite Heq in Hrun. injection Hrun as <- <-.
    split_and!; try done. unfold extends.
    destruct Hcase as [(_ & Hk & _ & Ht)|(Hnot & Hk & _ & _ & Ht)];
      rewrite Hk, Ht; split_and!; try done; try by apply prefix_app_r.
    intros Hnd. rewrite NoDup_app. split_and!; [done| |apply NoDup_singleton].
    intros x Hx ->%list_elem_of_singleton. done.
  - rewrite CreateFutureChain_reject in Hrun by done.
    injection Hrun as <- <-. split_and!; try done; apply extends_refl.
Qed.

Lemma loop_extends pending : ∀ U w o g w',
  loop U pending w = (o, g, w') →
  extends w w' ∧ self w' = self w ∧ utc w' = utc w ∧ g ≠ Created.
Proof.
  induction pending as [|s rest IH|e]; intros U w o g w' Hrun; cbn in Hrun.
  - injection Hrun as <- <- <-. split_and!; try done; apply extends_refl.
  - destruct (decide (Symbol.SecurityType s ≠ SecurityType.Future)).
    { injection Hrun as <- <- <-. split_and!; try done; apply extends_refl. }
    destruct (decide (s ∉ U)); [|by eapply IH].
    destruct (CreateFutureChain s w) as [[u|e] w1] eqn:Hc;
      apply CreateFutureChain_extends in Hc as (? & ? & ?);
      injection Hrun as <- <- <-; by split_and!.
  - injection Hrun as <- <- <-. split_and!; try done; apply extends_refl.
Qed.

Lemma next_Created_schedulable w :
  schedulable w →
  next Created w = loop ∅ (futureChainSymbolSelector (self w) (utc w)) (started w).
Proof.
  intros Hs. unfold next, datetime_add. fold (utc w). fold (due w).
  by rewrite decide_True.
Qed.

Lemma next_Created_overflow w :
  ¬ schedulable w → next Created w = (Raised overflow, Finished, w).
Proof.
  intros Hs. unfold next, datetime_add. fold (utc w). fold (due w).
  by rewrite decide_False.
Qed.

Lemma next_extends g w o g' w' :
  next g w = (o, g', w') →
  extends w w' ∧ utc w' = utc w ∧ g' ≠ Created
  ∧ refreshInterval (self w') = refreshInterval (self w)
  ∧ futureChainSymbolSelector (self w') = futureChainSymbolSelector (self w)
  ∧ universeSettings (self w') = universeSettings (self w).
Proof.
  destruct g as [|U pending|]; cbn -[next]; intros Hrun.
  - destruct (decide (schedulable w)) as [Hs|Hs].
    + rewrite next_Created_schedulable in Hrun by done.
      apply loop_extends in Hrun as ((K & N & T) & -> & -> & ?). cbn in *.
      split_and!; try done. split_and!; try done.
      etrans; [|exact T]. rewrite <- app_assoc. by apply prefix_app_r.
    + rewrite next_Created_overflow in Hrun by done.
      injection Hrun as <- <- <-. split_and!; try done; apply extends_refl.
  - cbn in Hrun. apply loop_extends in Hrun as (? & -> & ? & ?). done.
  - injection Hrun as <- <- <-. split_and!; try done; apply extends_refl.
Qed.

Lemma next_resumed_self g w o g' w' :
  g ≠ Created → next g w = (o, g', w') → self w' = self w.
Proof.
  destruct g as [|U pending|]; cbn; intros Hg Hrun; [done| |].
  - by apply loop_extends in Hrun as (_ & ? & _).
  - by injection Hrun as <- <- <-.
Qed.

Lemma iterate_extends n : ∀ g w,
  extends w (world (iterate n g w)) ∧ utc (world (iterate n g w)) = utc w.
Proof.
  induction n as [|n IH]; intros g w; cbn; [split; [apply extends_refl|done]|].
  destruct (next g w) as [[o g'] w'] eqn:Hn.
  apply next_extends in Hn as (E & U & _).
  destruct o; cbn; try done.
  destruct (IH g' w') as (E' & U'). split; [by eapply extends_trans|congruence].
Qed.

Lemma iterate_resumed_self n : ∀ g w,
  g ≠ Created → self (world (iterate n g w)) = self w.
Proof.
  induction n as [|n IH]; intros g w Hg; cbn; [done|].
  destruct (next g w) as [[o g'] w'] eqn:Hn.
  pose proof (next_resumed_self _ _ _ _ _ Hg Hn) as Hs.
  apply next_extends in Hn as (_ & _ & Hg' & _).
  destruct o; cbn; try done. by rewrite IH.
Qed.

Lemma step_extends w w' : step w w' → extends w w'.
Proof.
  intros [g w0|s w0|t w0].
  - destruct (next g w0) as [[o g'] w1] eqn:Hn.
    by apply next_extends in Hn as (? & _).
  - destruct (CreateFutureChain s w0) as [r w1] eqn:Hc.
    by apply CreateFutureChain_extends in Hc as (? & _).
  - by split_and!.
Qed.

Lemma evolves_extends w w' : evolves w w' → extends w w'.
Proof.
  induction 1 as [|w1 w2 w3 Hs _ IH]; [apply extends_refl|].
  eapply extends_trans; [by apply step_extends|done].
Qed.

(** ** The first advance of the generator *)

Lemma next_Created_trace w :
  schedulable w →
  ∃ later,
    trace (next Created w).2
    = trace w ++ SetNextRefreshTimeUtc (due w) :: SelectorCalled (utc w) :: later.
Proof.
  intros Hs. rewrite next_Created_schedulable by done.
  destruct (loop _ _ _) as [[o g] w'] eqn:Hl.
  apply loop_extends in Hl as ((_ & _ & [later Ht]) & _). cbn in *.
  exists later. by rewrite Ht, <- !app_assoc.
Qed.

Lemma next_Created_due w :
  schedulable w → nextRefreshTimeUtc (self (next Created w).2) = due w.
Proof.
  intros Hs. rewrite next_Created_schedulable by done.
  destruct (loop _ _ _) as [[o g] w'] eqn:Hl.
  apply loop_extends in Hl as (_ & Hself & _). cbn. by rewrite Hself.
Qed.

Lemma iterate_started n w :
  schedulable w →
  nextRefreshTimeUtc (self (world (iterate (S n) Created w))) = due w.
Proof.
  intros Hs. pose proof (next_Created_due w Hs) as Hv. cbn [iterate].
  destruct (next Created w) as [[o g'] w'] eqn:Hn. cbn in Hv.
  apply next_extends in Hn as (_ & _ & Hg' & _).
  destruct o; cbn; try done. by rewrite iterate_resumed_self.
Qed.

Lemma iterate_Created n w :
  schedulable w →
  iterate (S n) Created w
  = iterate (S n) (Suspended ∅ (futureChainSymbolSelector (self w) (utc w)))
            (started w).
Proof.
  intros Hs. cbn [iterate]. by rewrite next_Created_schedulable.
Qed.

(** When line 46 overflows, the iteration ends there: nothing is yielded
    and the world is as it was. *)
Lemma iterate_overflow n w :
  ¬ schedulable w →
  iterate (S n) Created w
  = {| universes := []; error := Some overflow; generator := Finished; world := w |}.
Proof.
  intros Hs. cbn [iterate]. by rewrite next_Created_overflow.
Qed.

(** ** The loop over a list of future symbols *)

Lemma returning_prepend l : returning l = prepend l Exhausted.
Proof. induction l; cbn; congruence. Qed.

Lemma returning_app before (bad : Symbol.t) after :
  returning (before ++ bad :: after) = prepend before (Item bad (returning after)).
Proof. induction before as [|s l IH]; cbn; congruence. Qed.

Lemma first_rejected (symbols : list Symbol.t) :
  Exists (λ s, ¬ is_future s) symbols →
  ∃ before bad after,
    symbols = before ++ bad :: after
    ∧ Forall is_future before ∧ ¬ is_future bad.
Proof.
  induction symbols as [|s l IH]; intros Hex; [by apply Exists_nil in Hex|].
  destruct (decide (is_future s)) as [Hs|Hs].
  - apply Exists_cons in Hex as [?|Hex]; [done|].
    destruct (IH Hex) as (before & bad & after & -> & Hb & Hbad).
    exists (s :: before), bad, after. split_and!; try done. by constructor.
  - exists [], s, l. by split_and!.
Qed.

Lemma first_seen_future U l : Forall is_future l → Forall is_future (first_seen U l).
Proof.
  intros H. revert U. induction H as [|s l Hs Hl IH]; intros U; cbn; [done|].
  destruct (decide (s ∈ U)); [apply IH|]. constructor; [done|apply IH].
Qed.

Lemma seen_union_seen (s : Symbol.t) (l : list Symbol.t) (U : gset Symbol.t) :
  s ∈ U → list_to_set (s :: l) ∪ U = list_to_set l ∪ U.
Proof.
  intros Hs. apply set_eq. intros x.
  rewrite !elem_of_union, !elem_of_list_to_set, elem_of_cons.
  split; [intros [[->|?]|?]; auto|intros [?|?]; auto].
Qed.

Lemma seen_union_new (s : Symbol.t) (l : list Symbol.t) (U : gset Symbol.t) :
  list_to_set (s :: l) ∪ U = list_to_set l ∪ ({[s]} ∪ U).
Proof.
  apply set_eq. intros x.
  rewrite !elem_of_union, !elem_of_list_to_set, elem_of_cons, elem_of_singleton.
  split; [intros [[?|?]|?]; auto|intros [?|[?|?]]; auto].
Qed.

(** Advancing the generator through a list of future symbols yields the
    universes of the first occurrences, one per call of [next], and leaves
    the generator in front of what follows the list. *)
Lemma iterate_prepend l tail : ∀ U w k,
  Forall is_future l →
  iterate (length (first_seen U l) + S k) (Suspended U (prepend l tail)) w
  = let r := iterate (S k) (Suspended (list_to_set l ∪ U) tail)
                     (chains (first_seen U l) w).2 in
    {| universes := (chains (first_seen U l) w).1 ++ universes r;
       error := error r; generator := generator r; world := world r |}.
Proof.
  induction l as [|s l IH]; intros U w k Hl.
  - cbn [first_seen length prepend chains fst snd app plus list_to_set].
    rewrite (left_id_L ∅ (∪)). by destruct (iterate (S k) _ w).
  - apply Forall_cons in Hl as [Hs Hl].
    cbn [first_seen]. destruct (decide (s ∈ U)) as [HU|HU].
    + rewrite seen_union_seen, <- IH by done.
      rewrite Nat.add_succ_r. cbn [iterate next prepend loop].
      do 2 guard_passes. done.
    + rewrite seen_union_new. cbn [length plus iterate next prepend loop chains].
      guard_passes. rewrite decide_True by done.
      destruct (CreateFutureChain_Future s w Hs) as (u & w' & -> & _).
      rewrite IH by done. cbn.
      by destruct (chains _ w') as [us w''].
Qed.

Lemma chains_future l : ∀ w,
  Forall is_future l →
  length (chains l w).1 = length l
  ∧ universe_symbol (chains l w).2 <$> (chains l w).1 = Some ∘ canonical <$> l
  ∧ extends w (chains l w).2.
Proof.
  induction l as [|s l IH]; intros w Hl; cbn.
  - split_and!; try done; apply extends_refl.
  - apply Forall_cons in Hl as [Hs Hl].
    destruct (CreateFutureChain_Future s w Hs)
      as (u & w' & Hc & _ & _ & _ & Hpos & _ & _).
    rewrite Hc. pose proof (CreateFutureChain_extends _ _ _ _ Hc) as (E & _).
    destruct (IH w' Hl) as (Hlen & Hsym & E').
    destruct (chains l w') as [us w'']. cbn in *.
    split_and!; [by rewrite Hlen| |by eapply extends_trans].
    f_equal; [|done].
    apply position_Some in Hpos. destruct E' as ([k Hk] & _).
    rewrite universe_symbol_keys, Hk.
    by rewrite lookup_app_l_Some with (x := canonical s).
Qed.

Lemma loop_Yield pending : ∀ U w u g w',
  loop U pending w = (Yield u, g, w') →
  ∃ s, is_future s ∧ CreateFutureChain s w = (Ok u, w').
Proof.
  induction pending as [|s rest IH|e]; intros U w u g w' Hrun; cbn in Hrun;
    [done| |done].
  destruct (decide (Symbol.SecurityType s ≠ SecurityType.Future)) as [|Hs]; [done|].
  destruct (decide (s ∉ U)); [|by eapply IH].
  destruct (CreateFutureChain s w) as [[u0|e] w1] eqn:Hc; [|done].
  injection Hrun as <- <- <-. exists s. split; [|done].
  by apply dec_stable in Hs.
Qed.

Lemma next_Yield g w u g' w' :
  next g w = (Yield u, g', w') →
  ∃ s w0, is_future s ∧ CreateFutureChain s w0 = (Ok u, w')
          ∧ effective_settings w0 = effective_settings w.
Proof.
  destruct g as [|U pending|]; intros Hn; [| |done].
  - destruct (decide (schedulable w)) as [Hs|Hs].
    + rewrite next_Created_schedulable in Hn by done.
      apply loop_Yield in Hn as (s & ? & ?). by exists s, (started w).
    + by rewrite next_Created_overflow in Hn.
  - cbn in Hn. apply loop_Yield in Hn as (s & ? & ?). by exists s, w.
Qed.

(** ** Canonicalization *)

Lemma canonical_IsCanonical s : Symbol.IsCanonical (canonical s) = true.
Proof. unfold canonical. by destruct (Symbol.IsCanonical s) eqn:H. Qed.

Lemma canonical_future s : is_future s → is_future (canonical s).
Proof. unfold canonical, is_future. by destruct (Symbol.IsCanonical s). Qed.

Lemma Canonicalize_future s : is_future s → Canonicalize s = Ok (canonical s).
Proof. intros Hs. unfold Canonicalize. by guard_passes. Qed.

(** C2: canonicalization depends on the underlying only.  Two non-canonical
    future symbols with the same raw value and market (they may differ in
    anything else, such as the expiry) canonicalize to the same symbol, which
    is [Symbol.Create(Value, Future, market, "/" + Value)]; and the chain
    universes that [CreateFutureChain] builds from them, in whatever two
    worlds, are universes of that one symbol. *)
Theorem C2_canonical_depends_on_underlying_only (x y : Symbol.t) :
  is_future x → is_future y →
  Symbol.IsCanonical x = false → Symbol.IsCanonical y = false →
  Symbol.Value x = Symbol.Value y →
  SecurityIdentifier.Market (Symbol.ID x) = SecurityIdentifier.Market (Symbol.ID y) →
  Canonicalize x = Canonicalize y
  ∧ Canonicalize x
    = Ok (Symbol.Create (Symbol.Value x) SecurityType.Future
            (SecurityIdentifier.Market (Symbol.ID x)) ("/" +:+ Symbol.Value x))
  ∧ ∀ w w', ∃ u u',
      (CreateFutureChain x w).1 = Ok u ∧ (CreateFutureChain y w').1 = Ok u'
      ∧ universe_symbol (CreateFutureChain x w).2 u
        = universe_symbol (CreateFutureChain y w').2 u'.
Proof.
  intros Hx Hy Cx Cy Hv Hm.
  assert (Hc : canonical x = canonical y).
  { unfold canonical. by rewrite Cx, Cy, Hv, Hm. }
  rewrite !Canonicalize_future by done. split_and!.
  - by rewrite Hc.
  - unfold canonical. by rewrite Cx.
  - intros w w'.
    destruct (CreateFutureChain_Future x w Hx) as (u & w1 & -> & _ & _ & _ & Hp & _).
    destruct (CreateFutureChain_Future y w' Hy) as (u' & w1' & -> & _ & _ & _ & Hp' & _).
    exists u, u'. cbn. rewrite !universe_symbol_keys.
    apply position_Some in Hp, Hp'. by rewrite Hp, Hp', Hc.
Qed.

(** Two expiries of the ES root: different symbols, one canonical symbol. *)
Lemma C2_witness :
  Canonicalize (future_contract "ES" 20251219)
  = Canonicalize (future_contract "ES" 20260320)
  ∧ future_contract "ES" 20251219 ≠ future_contract "ES" 20260320.
Proof.
  split; [|done].
  apply (C2_canonical_depends_on_underlying_only
           (future_contract "ES" 20251219) (future_contract "ES" 20260320));
    reflexivity.
Defined.

(** C7: canonicalization is idempotent.  For a future symbol [x],
    canonicalization succeeds with some [c], canonicalizing [c] gives [c]
    again, and a symbol that is already canonical is returned unchanged. *)
Theorem C7_Canonicalize_idempotent (x : Symbol.t) :
  is_future x →
  ∃ c, Canonicalize x = Ok c
       ∧ Canonicalize c = Ok c
       ∧ (Symbol.IsCanonical x = true → c = x).
Proof.
  intros Hx. exists (canonical x). split_and!.
  - by apply Canonicalize_future.
  - rewrite Canonicalize_future by by apply canonical_future.
    unfold canonical at 1. by rewrite canonical_IsCanonical.
  - intros Hc. unfold canonical. by rewrite Hc.
Qed.

Lemma C7_witness :
  ∃ c, Canonicalize (future_contract "ES" 20251219) = Ok c
       ∧ Canonicalize c = Ok c
       ∧ (Symbol.IsCanonical (future_contract "ES" 20251219) = true
          → c = future_contract "ES" 20251219).
Proof.
  apply (C7_Canonicalize_idempotent (future_contract "ES" 20251219)).
  reflexivity.
Defined.

(** ** Provisioning *)

(** C3: provisioning is idempotent.  Resolving a canonical future symbol
    [c] succeeds and gives a universe of the security keyed by [c]; a
    security and a subscription configuration are created when no security
    is keyed by [c], and nothing is created when one is; resolving [c] again,
    at once or after any further activity of the host (other generator
    steps, other chains, later refresh cycles), gives the same security
    object and creates nothing; and a registry whose keys are distinct keeps
    distinct keys, so no key ever has two securities. *)
Theorem C3_provisioning_idempotent (c : Symbol.t) (w : World) :
  is_future c → Symbol.IsCanonical c = true →
  ∃ u1 w1,
    CreateFutureChain c w = (Ok u1, w1)
    ∧ universe_symbol w1 u1 = Some c
    ∧ (c ∈ keys w → keys w1 = keys w ∧ configs w1 = configs w)
    ∧ (c ∉ keys w → keys w1 = keys w ++ [c]
                    ∧ length (configs w1) = S (length (configs w)))
    ∧ (∀ w2, evolves w1 w2 →
         ∃ u2 w3, CreateFutureChain c w2 = (Ok u2, w3)
                  ∧ Future u2 = Future u1
                  ∧ universe_symbol w3 u2 = Some c
                  ∧ keys w3 = keys w2 ∧ configs w3 = configs w2)
    ∧ (∀ w2, evolves w w2 → NoDup (keys w) → NoDup (keys w2)).
Proof.
  intros Hf Hcan.
  assert (Hc : canonical c = c) by (unfold canonical; by rewrite Hcan).
  destruct (CreateFutureChain_Future c w Hf)
    as (u1 & w1 & Hrun & _ & _ & _ & Hpos & _ & Hcase).
  rewrite Hc in *. exists u1, w1. split_and!; try done.
  - rewrite universe_symbol_keys. by apply position_Some.
  - intros Hin. destruct Hcase as [(_ & ? & ? & _)|(? & _)]; done.
  - intros Hnot. destruct Hcase as [(? & _)|(_ & ? & ? & _)]; done.
  - intros w2 ([k Hk] & _)%evolves_extends.
    assert (Hpos2 : position (canonical c) (keys w2) = Some (Future u1)).
    { rewrite Hc, Hk. by apply position_app_l. }
    destruct (CreateFutureChain_resolved c w2 _ Hf Hpos2)
      as (u2 & w3 & ? & ? & ? & ? & ?).
    exists u2, w3. rewrite Hc in *. done.
  - intros w2 (_ & Hnd & _)%evolves_extends. done.
Qed.

(** The ES chain resolved twice in an engine with an empty registry. *)
Lemma C3_witness :
  ∃ u1 w1,
    CreateFutureChain (future_chain "ES") (fresh_world one_day (λ _, Exhausted) 1000)
    = (Ok u1, w1)
    ∧ ∃ u2 w2, CreateFutureChain (future_chain "ES") w1 = (Ok u2, w2)
               ∧ Future u2 = Future u1
               ∧ keys w2 = keys w1 ∧ configs w2 = configs w1.
Proof.
  destruct (C3_provisioning_idempotent (future_chain "ES")
              (fresh_world one_day (λ _, Exhausted) 1000))
    as (u1 & w1 & H1 & _ & _ & _ & Hagain & _); [reflexivity|reflexivity|].
  exists u1, w1. split; [exact H1|].
  destruct (Hagain w1 (rtc_refl _ _)) as (u2 & w2 & H2 & Hsame & _ & Hk & Hcfg).
  exists u2, w2. by split_and!.
Defined.

(** ** The filter hook *)


(** A contract of a chain whose security is already registered without a
    filter: the security is reused, nothing is created, the filter is set. *)
Example filter_set_on_existing_security :
  let sec := registered (future_chain "ES") in
  let w := {| self := __init__ one_day (λ _, Exhausted) None;
              algorithm := QCAlgorithm.mk 1000 minute_settings [sec] [];
              trace := [] |} in
  let r := CreateFutureChain (future_contract "ES" 20251219) w in
  r.1 = Ok {| Future := 0; Settings := minute_settings |}
  ∧ registry r.2 = [Security.SetFilter (Filter (self w)) sec]
  ∧ configs r.2 = []
  ∧ trace r.2 = [FilterSet 0].
Proof. vm_compute. done. Qed.

(** ** The schedule *)

(** C9: a new model has [nextRefreshTimeUtc = datetime.min], which no
    timestamp precedes, so whatever the engine time the first poll finds the
    refresh due; and [GetNextRefreshTimeUtc] returns the stored value and
    leaves the world as it was. *)
Theorem C9_initial_schedule_and_pure_read :
  (∀ refreshInterval selector settings,
     nextRefreshTimeUtc (__init__ refreshInterval selector settings) = datetime_min)
  ∧ (∀ t, is_datetime t → datetime_min ≤ t)
  ∧ (∀ w, GetNextRefreshTimeUtc w = (Ok (nextRefreshTimeUtc (self w)), w))
  ∧ (∀ refreshInterval selector settings a tr,
       is_datetime (QCAlgorithm.UtcTime a) →
       ∃ due, (GetNextRefreshTimeUtc
                 {| self := __init__ refreshInterval selector settings;
                    algorithm := a; trace := tr |}).1 = Ok due
              ∧ due ≤ QCAlgorithm.UtcTime a).
Proof.
  split_and!; try done.
  - by intros t [? _].
  - intros ri sel us a tr [? _]. by exists datetime_min.
Qed.

(** C10: calling [CreateUniverses] only makes a generator.  The world after
    the call is the world before it (same [nextRefreshTimeUtc], same log, so
    no selector call, same registry), a generator that is never advanced
    leaves it so, and the effects start with the first [next]: the schedule
    update, then the selector call; or, when the sum of line 46 overflows,
    the [OverflowError] and nothing else. *)
Theorem C10_CreateUniverses_is_lazy (w : World) :
  (CreateUniverses w).1 = Created
  ∧ (CreateUniverses w).2 = w
  ∧ (GetNextRefreshTimeUtc (CreateUniverses w).2).1 = (GetNextRefreshTimeUtc w).1
  ∧ world (advance 0 w) = w
  ∧ ((schedulable w
      ∧ ∃ later,
          trace (next (CreateUniverses w).1 (CreateUniverses w).2).2
          = trace w ++ SetNextRefreshTimeUtc (utc w + refreshInterval (self w))
                    :: SelectorCalled (utc w) :: later)
     ∨ (¬ schedulable w
        ∧ next (CreateUniverses w).1 (CreateUniverses w).2
          = (Raised overflow, Finished, w))).
Proof.
  split_and!; try done.
  destruct (decide (schedulable w)) as [Hs|Hs].
  - left. split; [done|]. by apply next_Created_trace.
  - right. split; [done|]. by apply next_Created_overflow.
Qed.

Lemma advance_overflow w : ¬ schedulable w → ends_on_overflow w.
Proof.
  intros Hs [|n]; [by split_and!; [| |lia]|].
  unfold advance. cbn [CreateUniverses fst snd]. rewrite iterate_overflow by done.
  by split_and!.
Qed.

(** C5, as amended: when the body of [CreateUniverses] runs, which is when
    the generator is first advanced, and the sum of line 46 is a datetime,
    the first effect is the update of [nextRefreshTimeUtc] to engine time
    plus [refreshInterval] and the second is the call of the selector; the
    update stands whatever the outcome, in particular when the selector
    raises (the exception comes out and the registry is untouched), and
    however far the generator is then advanced its effects start with these
    two.  An invocation whose generator is never advanced changes nothing;
    and when the sum of line 46 overflows, the first advance raises
    [OverflowError] and nothing is set, called or yielded. *)
Theorem C5_schedule_set_before_selection (w : World) :
  (schedulable w →
     (∃ later,
        trace (next Created w).2
        = trace w ++ SetNextRefreshTimeUtc (due w) :: SelectorCalled (utc w) :: later)
     ∧ nextRefreshTimeUtc (self (next Created w).2) = due w
     ∧ (∀ e, futureChainSymbolSelector (self w) (utc w) = Fails e →
             (next Created w).1 = (Raised e, Finished)
             ∧ registry (next Created w).2 = registry w)
     ∧ (∀ n, (0 < n)%nat →
             ∃ later,
               trace (world (advance n w))
               = trace w ++ SetNextRefreshTimeUtc (due w)
                         :: SelectorCalled (utc w) :: later))
  ∧ world (advance 0 w) = w
  ∧ (¬ schedulable w → ends_on_overflow w).
Proof.
  split_and!; [|done|apply advance_overflow].
  intros Hs. split_and!.
  - by apply next_Created_trace.
  - by apply next_Created_due.
  - intros e He. rewrite next_Created_schedulable by done. by rewrite He.
  - intros [|n] Hn; [lia|].
    destruct (next_Created_trace w Hs) as [later Hfirst].
    unfold advance. cbn [CreateUniverses fst snd iterate].
    destruct (next Created w) as [[o g'] w'] eqn:Hnext. cbn in Hfirst.
    destruct o; cbn; try by exists later.
    destruct (iterate_extends n g' w') as ((_ & _ & [more Ht]) & _).
    exists (later ++ more). rewrite Ht, Hfirst, <- app_assoc. done.
Qed.

(** A selector that raises, at a time where line 46 does not overflow: the
    schedule is set first and stays set. *)
Lemma C5_witness :
  (∃ later,
     trace (next Created (fresh_world one_day (λ _, Fails (OtherError "no data")) 1000)).2
     = SetNextRefreshTimeUtc (1000 + one_day) :: SelectorCalled 1000 :: later)
  ∧ nextRefreshTimeUtc
      (self (next Created (fresh_world one_day (λ _, Fails (OtherError "no data")) 1000)).2)
    = 1000 + one_day
  ∧ (next Created (fresh_world one_day (λ _, Fails (OtherError "no data")) 1000)).1
    = (Raised (OtherError "no data"), Finished).
Proof.
  destruct (C5_schedule_set_before_selection
              (fresh_world one_day (λ _, Fails (OtherError "no data")) 1000))
    as (Hset & _ & _).
  destruct Hset as (Htrace & Hdue & Hfails & _); [by vm_compute|].
  split_and!; [exact Htrace|exact Hdue|].
  by destruct (Hfails (OtherError "no data") eq_refl).
Defined.

(** C5 as stated fails for an invocation whose generator is not advanced
    (nothing is logged and [nextRefreshTimeUtc] keeps its initial value),
    and for one advanced when the sum of line 46 overflows (the same, with
    [OverflowError] as the outcome). *)
Lemma C5_invocation_alone_counterexample :
  let w := fresh_world one_day (λ _, returning [future_chain "ES"]) 1000 in
  let w' := overflowing_world (λ _, returning [future_chain "ES"]) in
  (trace (CreateUniverses w).2 = []
   ∧ nextRefreshTimeUtc (self (CreateUniverses w).2) = datetime_min
   ∧ nextRefreshTimeUtc (self (CreateUniverses w).2) ≠ due w)
  ∧ (error (advance 1 w') = Some overflow
     ∧ trace (world (advance 1 w')) = []
     ∧ nextRefreshTimeUtc (self (world (advance 1 w'))) = datetime_min
     ∧ nextRefreshTimeUtc (self (world (advance 1 w'))) ≠ due w').
Proof. vm_compute. by split_and!. Qed.

(** C4, as amended: once the generator returned by [CreateUniverses] has
    been advanced at least once, at an engine time whose sum with
    [refreshInterval] is a datetime, [GetNextRefreshTimeUtc] returns that
    sum, whatever the selector did (returned symbols, duplicates or not, or
    raised) and however far the generator was advanced.  A call whose
    generator is never advanced leaves the next refresh time as it was; and
    when the sum overflows, the first advance raises [OverflowError] and
    the next refresh time stays as it was. *)
Theorem C4_schedule_after_first_advance (w : World) :
  (∀ n, (0 < n)%nat → schedulable w →
        GetNextRefreshTimeUtc (world (advance n w))
        = (Ok (utc w + refreshInterval (self w)), world (advance n w)))
  ∧ GetNextRefreshTimeUtc (world (advance 0 w)) = GetNextRefreshTimeUtc w
  ∧ (¬ schedulable w →
       ends_on_overflow w
       ∧ ∀ n, GetNextRefreshTimeUtc (world (advance n w)) = GetNextRefreshTimeUtc w).
Proof.
  split_and!; [|done|].
  - intros [|n] Hn Hs; [lia|].
    unfold GetNextRefreshTimeUtc, gets, advance. cbn [CreateUniverses fst snd].
    by rewrite iterate_started.
  - intros Hs. pose proof (advance_overflow w Hs) as Hov.
    split; [done|]. intros n. destruct (Hov n) as (_ & -> & _). done.
Qed.

(** A selector that raises: the cycle fails and the schedule has advanced. *)
Lemma C4_witness :
  error (advance 1 (fresh_world one_day (λ _, Fails (OtherError "no data")) 1000))
  = Some (OtherError "no data")
  ∧ (GetNextRefreshTimeUtc
       (world (advance 1 (fresh_world one_day (λ _, Fails (OtherError "no data")) 1000)))).1
    = Ok (1000 + one_day).
Proof.
  split; [reflexivity|].
  destruct (C4_schedule_after_first_advance
              (fresh_world one_day (λ _, Fails (OtherError "no data")) 1000))
    as (Hset & _).
  rewrite (Hset 1%nat); [reflexivity|lia|by vm_compute].
Defined.

(** C4 as stated fails: after the call alone, at time 1000 with an interval
    of one day, the next refresh time is still [datetime.min]; and with an
    interval of [timedelta.max] it is still [datetime.min] after the
    generator was advanced, the advance having raised [OverflowError]. *)
Lemma C4_call_alone_counterexample :
  let w := fresh_world one_day (λ _, returning [future_chain "ES"]) 1000 in
  let w' := overflowing_world (λ _, returning [future_chain "ES"]) in
  ((GetNextRefreshTimeUtc (CreateUniverses w).2).1 = Ok datetime_min
   ∧ (GetNextRefreshTimeUtc (CreateUniverses w).2).1 ≠ Ok (1000 + one_day))
  ∧ (error (advance 1 w') = Some overflow
     ∧ (GetNextRefreshTimeUtc (world (advance 1 w'))).1 = Ok datetime_min
     ∧ (GetNextRefreshTimeUtc (world (advance 1 w'))).1 ≠ Ok (1000 + timedelta_max)).
Proof. vm_compute. by split_and!. Qed.

(** ** Asset-class rejection *)

Lemma rejected_after_prefix (w : World) before bad after k :
  schedulable w →
  futureChainSymbolSelector (self w) (utc w) = prepend before (Item bad after) →
  Forall is_future before → ¬ is_future bad →
  rejected_after w before (length (first_seen ∅ before) + S k).
Proof.
  intros Hs Hsel Hbefore Hbad. unfold rejected_after, advance.
  cbn [CreateUniverses fst snd].
  rewrite Nat.add_succ_r, iterate_Created, Hsel, <- Nat.add_succ_r by done.
  rewrite iterate_prepend by done.
  pose proof (chains_future (first_seen ∅ before) (started w)
                (first_seen_future _ _ Hbefore)) as (Hlen & Hsym & _).
  cbn [iterate next loop]. rewrite decide_True by done. cbn.
  rewrite !app_nil_r. split_and!; try done.
  intros ->. done.
Qed.

(** C6, as amended: when the symbols returned by the selector contain one
    that is not a future, and the sum of line 46 is a datetime, the
    iteration ends with the [ValueError] of line 51 when it reaches the
    first such symbol; the universes of the symbols before it (one per
    distinct symbol) have been yielded by then, none is yielded afterwards,
    and when the offending symbol comes first no universe is yielded and the
    registry is untouched.  When the sum of line 46 overflows, the iteration
    ends at once with [OverflowError] instead: the selector is not called
    and nothing is yielded. *)
Theorem C6_rejection_after_earlier_universes (w : World) (symbols : list Symbol.t) :
  futureChainSymbolSelector (self w) (utc w) = returning symbols →
  Exists (λ s, ¬ is_future s) symbols →
  (schedulable w →
     ∃ before bad after,
       symbols = before ++ bad :: after
       ∧ Forall is_future before ∧ ¬ is_future bad
       ∧ ∀ k, rejected_after w before (length (first_seen ∅ before) + S k))
  ∧ (¬ schedulable w → ends_on_overflow w).
Proof.
  intros Hsel (before & bad & after & -> & Hbefore & Hbad)%first_rejected.
  split; [|apply advance_overflow].
  intros Hs. exists before, bad, after. split_and!; try done.
  intros k. eapply rejected_after_prefix; try done.
  by rewrite Hsel, returning_app.
Qed.

Lemma C6_witness :
  ∃ before bad after,
    [future_contract "ES" 20251219; equity "AAPL"; future_contract "NQ" 20251219]
    = before ++ bad :: after
    ∧ Forall is_future before ∧ ¬ is_future bad
    ∧ ∀ k, rejected_after
             (fresh_world one_day
                (λ _, returning [future_contract "ES" 20251219; equity "AAPL";
                                 future_contract "NQ" 20251219]) 1000)
             before (length (first_seen ∅ before) + S k).
Proof.
  destruct (C6_rejection_after_earlier_universes
              (fresh_world one_day
                 (λ _, returning [future_contract "ES" 20251219; equity "AAPL";
                                  future_contract "NQ" 20251219]) 1000)
              [future_contract "ES" 20251219; equity "AAPL";
               future_contract "NQ" 20251219]) as (Hrej & _).
  - reflexivity.
  - apply Exists_cons. right. apply Exists_cons. left. discriminate.
  - apply Hrej. by vm_compute.
Defined.

(** C6 as stated fails: the selector returns a future and then an equity;
    the iteration ends with the [ValueError], and a universe of the ES chain
    was yielded and its security created before that.  And with an interval
    of [timedelta.max] the iteration ends with [OverflowError], which is not
    the [ValueError]. *)
Lemma C6_universe_before_rejection_counterexample :
  let r := advance 3 (fresh_world one_day
                        (λ _, returning [future_contract "ES" 20251219;
                                         equity "AAPL"]) 1000) in
  let r' := advance 3 (overflowing_world
                         (λ _, returning [future_contract "ES" 20251219;
                                          equity "AAPL"])) in
  (error r = Some rejection
   ∧ universe_symbol (world r) <$> universes r = [Some (future_chain "ES")]
   ∧ keys (world r) = [future_chain "ES"])
  ∧ (error r' = Some overflow ∧ overflow ≠ rejection).
Proof. vm_compute. by split_and!. Qed.

(** ** Deduplication *)

(** What the loop does: one universe per distinct symbol returned by the
    selector, in the order of first occurrence, each for the canonical form
    of its symbol. *)
Corollary CreateUniverses_first_seen (w : World) (symbols : list Symbol.t) (k : nat) :
  schedulable w →
  futureChainSymbolSelector (self w) (utc w) = returning symbols →
  Forall is_future symbols →
  let r := advance (length (first_seen ∅ symbols) + S k) w in
  error r = None
  ∧ generator r = Finished
  ∧ universe_symbol (world r) <$> universes r
    = Some ∘ canonical <$> first_seen ∅ symbols.
Proof.
  intros Hs Hsel Hall r. subst r. unfold advance. cbn [CreateUniverses fst snd].
  rewrite Nat.add_succ_r, iterate_Created, Hsel, <- Nat.add_succ_r by done.
  rewrite returning_prepend, iterate_prepend by done.
  pose proof (chains_future (first_seen ∅ symbols) (started w)
                (first_seen_future _ _ Hall)) as (_ & Hsym & _).
  cbn. rewrite !app_nil_r. by split_and!.
Qed.

(** C1 (one universe per canonical identifier within a cycle) does not hold
    of the code.  [X] is a contract of the ES root and [X'] the ES chain
    symbol: different symbols with one canonical form.  The selector returns
    [X; Y; X']; the iteration ends normally after three universes, the first
    and the third both for the ES chain (the same security object, 0). *)
Theorem C1_two_universes_for_one_chain :
  let X := future_contract "ES" 20251219 in
  let Y := future_contract "NQ" 20251219 in
  let X' := future_chain "ES" in
  let r := advance 4 (fresh_world one_day (λ _, returning [X; Y; X']) 1000) in
  Canonicalize X = Ok (future_chain "ES")
  ∧ Canonicalize X' = Ok (future_chain "ES")
  ∧ X ≠ X'
  ∧ error r = None ∧ generator r = Finished
  ∧ universe_symbol (world r) <$> universes r
    = [Some (future_chain "ES"); Some (future_chain "NQ"); Some (future_chain "ES")]
  ∧ Future <$> universes r = [0; 1; 0]%nat
  ∧ keys (world r) = [future_chain "ES"; future_chain "NQ"].
Proof. vm_compute. by split_and!. Qed.

(** The same with two expiries of one root. *)
Example two_expiries_of_one_root :
  let X := future_contract "ES" 20251219 in
  let X' := future_contract "ES" 20260320 in
  let r := advance 3 (fresh_world one_day (λ _, returning [X; X']) 1000) in
  universe_symbol (world r) <$> universes r
  = [Some (future_chain "ES"); Some (future_chain "ES")].
Proof. vm_compute. done. Qed.

(** A symbol equal to an earlier one is dropped. *)
Example equal_symbols_are_dropped :
  let X := future_contract "ES" 20251219 in
  let Y := future_contract "NQ" 20251219 in
  let r := advance 3 (fresh_world one_day (λ _, returning [X; Y; X]) 1000) in
  error r = None ∧ generator r = Finished
  ∧ universe_symbol (world r) <$> universes r
    = [Some (future_chain "ES"); Some (future_chain "NQ")].
Proof. vm_compute. done. Qed.


(** * Further properties of the code *)

(** ** What every step leaves alone *)

Lemma same_security_refl sec : same_security sec sec.
Proof. by split_and!. Qed.

Lemma same_security_trans s1 s2 s3 :
  same_security s1 s2 → same_security s2 s3 → same_security s1 s3.
Proof. intros (?&?&?&?) (?&?&?&?). split_and!; congruence. Qed.

Lemma keeps_refl w : keeps w w.
Proof.
  split_and!; try done. intros j sec ?. exists sec. split; [done|apply same_security_refl].
Qed.

Lemma keeps_trans w1 w2 w3 : keeps w1 w2 → keeps w2 w3 → keeps w1 w3.
Proof.
  intros (E12 & P12 & L12 & ? & ? & ? & ?) (E23 & P23 & L23 & ? & ? & ? & ?).
  split_and!; try congruence.
  - intros j sec Hj. destruct (E12 j sec Hj) as (sec2 & Hj2 & ?).
    destruct (E23 j sec2 Hj2) as (sec3 & Hj3 & ?).
    exists sec3. split; [done|by eapply same_security_trans].
  - by etrans.
  - lia.
Qed.

Lemma lookup_alter_SetFilter f i (l extra : list Security.t) j sec :
  l !! j = Some sec →
  ∃ sec', alter (Security.SetFilter f) i (l ++ extra) !! j = Some sec'
          ∧ same_security sec sec'.
Proof.
  intros Hj. rewrite list_lookup_alter.
  destruct (decide (i = j)) as [->|_];
    rewrite (lookup_app_l_Some _ _ _ _ Hj); cbn; eexists; split; try done;
    apply same_security_refl.
Qed.

Lemma CreateFutureChain_keeps s w : keeps w (CreateFutureChain s w).2.
Proof.
  destruct (decide (is_future s)) as [Hs|Hs];
    [|rewrite CreateFutureChain_reject by done; apply keeps_refl].
  unfold CreateFutureChain, mbind, M_bind, lift, gets, Canonicalize.
  guard_passes. cbn.
  destruct (securities_keyed _ _) as [|[i y] rest].
  - unfold CreateFutureChainSecurity, SubscriptionDataConfigService_Add,
      Securities_CreateSecurity, SetFilter, mbind, M_bind, mret, M_ret, gets.
    unfold keeps, registry, configs; cbn. split_and!; try done.
    + intros j sec Hj. by apply lookup_alter_SetFilter.
    + by apply prefix_app_r.
    + rewrite length_alter, !length_app. cbn. lia.
  - unfold SetFilter, mbind, M_bind, mret, M_ret, gets.
    unfold keeps, registry, configs; cbn. split_and!; try done.
    + intros j sec Hj.
      rewrite <- (app_nil_r (QCAlgorithm.Securities (algorithm w))).
      by apply lookup_alter_SetFilter.
    + rewrite length_alter. lia.
Qed.

Lemma loop_keeps pending : ∀ U w, keeps w (loop U pending w).2.
Proof.
  induction pending as [|s rest IH|e]; intros U w; cbn; try apply keeps_refl.
  destruct (decide (Symbol.SecurityType s ≠ SecurityType.Future)); [apply keeps_refl|].
  destruct (decide (s ∉ U)); [|apply IH].
  pose proof (CreateFutureChain_keeps s w) as H.
  by destruct (CreateFutureChain s w) as [[u|e] w1].
Qed.

Lemma next_keeps g w : keeps w (next g w).2.
Proof.
  destruct g as [|U pending|]; [|apply loop_keeps|apply keeps_refl].
  destruct (decide (schedulable w)) as [Hs|Hs];
    [|rewrite next_Created_overflow by done; apply keeps_refl].
  rewrite next_Created_schedulable by done.
  eapply keeps_trans; [|apply loop_keeps].
  split_and!; try done. intros j sec ?. exists sec. split; [done|apply same_security_refl].
Qed.

Lemma iterate_keeps n : ∀ g w, keeps w (world (iterate n g w)).
Proof.
  induction n as [|n IH]; intros g w; cbn; [apply keeps_refl|].
  pose proof (next_keeps g w) as H.
  destruct (next g w) as [[o g'] w']. cbn in H.
  destruct o; cbn; try done. by eapply keeps_trans.
Qed.

Lemma step_keeps w w' : step w w' → keeps w w'.
Proof.
  intros [g w0|s w0|t w0];
    [apply next_keeps|apply CreateFutureChain_keeps|].
  split_and!; try done. intros j sec ?. exists sec. split; [done|apply same_security_refl].
Qed.

Lemma evolves_keeps w w' : evolves w w' → keeps w w'.
Proof.
  induction 1 as [|w1 w2 w3 Hs _ IH]; [apply keeps_refl|].
  eapply keeps_trans; [by apply step_keeps|done].
Qed.

Lemma iterate_evolves n : ∀ g w, evolves w (world (iterate n g w)).
Proof.
  induction n as [|n IH]; intros g w; cbn; [apply rtc_refl|].
  pose proof (step_next g w) as Hs.
  destruct (next g w) as [[o g'] w']. cbn in Hs.
  destruct o; cbn; try by apply rtc_once.
  eapply rtc_l; [exact Hs|apply IH].
Qed.

(** X9: whatever the host does with the model (generator steps, chain
    calls, clock moves), a registered security stays at its place with its
    key, configuration, leverage and seeding flag; only its filter can
    change. *)
Theorem X9_registered_securities_are_kept (w w' : World) (j : nat) (sec : Security.t) :
  evolves w w' → registry w !! j = Some sec →
  ∃ sec', registry w' !! j = Some sec'
          ∧ Security.Key sec' = Security.Key sec
          ∧ Security.Config sec' = Security.Config sec
          ∧ Security.Leverage sec' = Security.Leverage sec
          ∧ Security.SeedInitialData sec' = Security.SeedInitialData sec.
Proof. intros (E & _)%evolves_keeps Hj. exact (E j sec Hj). Qed.

Lemma X9_registered_securities_are_kept_witness :
  ∃ sec', registry (next Created es_registered_world).2 !! 0%nat = Some sec'
          ∧ Security.Key sec' = Security.Key (registered (future_chain "ES"))
          ∧ Security.Config sec' = Security.Config (registered (future_chain "ES"))
          ∧ Security.Leverage sec' = Security.Leverage (registered (future_chain "ES"))
          ∧ Security.SeedInitialData sec'
            = Security.SeedInitialData (registered (future_chain "ES")).
Proof.
  apply (X9_registered_securities_are_kept es_registered_world
           (next Created es_registered_world).2 0 (registered (future_chain "ES"))).
  - apply rtc_once. apply step_next.
  - reflexivity.
Defined.

(** X10: securities and subscription configurations are only ever added,
    and as many of the ones as of the others; the configurations that exist
    are left as they are. *)
Theorem X10_securities_and_configs_grow_together (w w' : World) :
  evolves w w' →
  ∃ added : nat,
    length (registry w') = (length (registry w) + added)%nat
    ∧ length (configs w') = (length (configs w) + added)%nat
    ∧ configs w `prefix_of` configs w'.
Proof.
  intros Hev. pose proof (evolves_keeps _ _ Hev) as (_ & P & L & _).
  apply evolves_extends in Hev as ([k Hk] & _).
  exists (length k). apply (f_equal length) in Hk.
  unfold keys in Hk. rewrite length_app, !length_fmap in Hk.
  split_and!; [done|lia|done].
Qed.

Lemma X10_securities_and_configs_grow_together_witness :
  ∃ added : nat,
    length (registry (next Created (fresh_world one_day
              (λ _, returning [future_contract "ES" 20251219]) 1000)).2)
    = (0 + added)%nat
    ∧ length (configs (next Created (fresh_world one_day
              (λ _, returning [future_contract "ES" 20251219]) 1000)).2)
      = (0 + added)%nat
    ∧ [] `prefix_of` configs (next Created (fresh_world one_day
              (λ _, returning [future_contract "ES" 20251219]) 1000)).2.
Proof.
  apply (X10_securities_and_configs_grow_together
           (fresh_world one_day (λ _, returning [future_contract "ES" 20251219]) 1000)
           (next Created (fresh_world one_day
              (λ _, returning [future_contract "ES" 20251219]) 1000)).2).
  apply rtc_once. apply step_next.
Defined.

(** X11: the model never changes its refresh interval, its selector or its
    settings, nor the engine's default settings; [nextRefreshTimeUtc] is the
    only attribute it writes. *)
Theorem X11_model_parameters_never_change (w w' : World) :
  evolves w w' →
  refreshInterval (self w') = refreshInterval (self w)
  ∧ futureChainSymbolSelector (self w') = futureChainSymbolSelector (self w)
  ∧ universeSettings (self w') = universeSettings (self w)
  ∧ QCAlgorithm.UniverseSettings (algorithm w')
    = QCAlgorithm.UniverseSettings (algorithm w)
  ∧ effective_settings w' = effective_settings w.
Proof.
  intros (_ & _ & _ & Hu & ? & ? & Hs)%evolves_keeps. split_and!; try done.
  unfold effective_settings. by rewrite Hs, Hu.
Qed.

Lemma X11_model_parameters_never_change_witness :
  refreshInterval (self (world (advance 3 es_registered_world))) = one_day
  ∧ universeSettings (self (world (advance 3 es_registered_world))) = None.
Proof.
  destruct (X11_model_parameters_never_change es_registered_world
              (world (advance 3 es_registered_world))) as (H1 & _ & H3 & _).
  - apply iterate_evolves.
  - split; [exact H1|exact H3].
Defined.

(** ** The settings of a universe and of a created security *)

(** X8: every universe the generator yields carries the model's
    [universeSettings] when the model was given some, and the engine's
    [UniverseSettings] otherwise. *)
Theorem X8_yielded_universe_carries_effective_settings
    (g : Generator) (w : World) (u : FuturesChainUniverse) (g' : Generator) (w' : World) :
  next g w = (Yield u, g', w') →
  Settings u = match universeSettings (self w) with
               | Some settings => settings
               | None => QCAlgorithm.UniverseSettings (algorithm w)
               end.
Proof.
  intros (s & w0 & Hs & Hc & Heq)%next_Yield.
  change (Settings u = effective_settings w). rewrite <- Heq.
  destruct (CreateFutureChain_Future s w0 Hs) as (u1 & w1 & Hc1 & Hset & _).
  rewrite Hc in Hc1. by injection Hc1 as <- <-.
Qed.

Lemma X8_yielded_universe_carries_effective_settings_witness :
  ∃ u g' w', next Created es_registered_world = (Yield u, g', w')
             ∧ Settings u = minute_settings.
Proof.
  eexists _, _, _. split; [reflexivity|].
  apply (X8_yielded_universe_carries_effective_settings Created es_registered_world
           _ _ _ eq_refl).
Defined.

(** X7: when no security is keyed by the canonical symbol, the universe
    refers to a new security at the end of the registry, keyed by the
    canonical symbol, created from a ZipEntryName configuration with the
    resolution, fill-forward and extended-hours of the effective settings
    and with their leverage, and carrying the filter; that configuration is
    the one added. *)
Theorem X7_created_security_follows_settings (s : Symbol.t) (w : World) :
  is_future s → canonical s ∉ keys w →
  let settings := effective_settings w in
  let config := chain_config (canonical s) settings in
  ∃ w', CreateFutureChain s w
        = (Ok {| Future := length (registry w); Settings := settings |}, w')
        ∧ registry w'
          = registry w ++ [Security.mk (canonical s) config
                             (UniverseSettings.Leverage settings) false
                             (Some (Filter (self w)))]
        ∧ configs w' = configs w ++ [config].
Proof.
  intros Hs Hnot settings config.
  assert (Hfind : list_find (λ x, Security.Key x = canonical s) (registry w) = None).
  { apply position_None in Hnot. unfold position, keys in Hnot.
    rewrite <- list_find_key in Hnot. by apply fmap_None in Hnot. }
  rewrite <- securities_keyed_head in Hfind.
  unfold CreateFutureChain, mbind, M_bind, lift, gets, Canonicalize.
  guard_passes. cbn. unfold registry in Hfind.
  destruct (securities_keyed _ _) as [|[j y] rest]; [|done].
  cbn. eexists. split; [reflexivity|]. cbn.
  unfold registry, configs. cbn. split; [|done].
  rewrite alter_app_r_alt by lia. by rewrite Nat.sub_diag.
Qed.

Lemma X7_created_security_follows_settings_witness :
  ∃ w', CreateFutureChain (future_contract "ES" 20251219)
          (fresh_world one_day (λ _, Exhausted) 1000)
        = (Ok {| Future := 0; Settings := minute_settings |}, w')
        ∧ registry w'
          = [Security.mk (future_chain "ES")
               (chain_config (future_chain "ES") minute_settings)
               1 false (Some (Filter (self (fresh_world one_day (λ _, Exhausted) 1000))))]
        ∧ configs w' = [chain_config (future_chain "ES") minute_settings].
Proof.
  apply (X7_created_security_follows_settings (future_contract "ES" 20251219)
           (fresh_world one_day (λ _, Exhausted) 1000)).
  - reflexivity.
  - apply not_elem_of_nil.
Defined.


(** ** first_seen *)

Lemma first_seen_elem l : ∀ U s, s ∈ first_seen U l ↔ s ∈ l ∧ s ∉ U.
Proof.
  induction l as [|x l IH]; intros U s; cbn.
  - split; [by intros ?%elem_of_nil|by intros [?%elem_of_nil _]].
  - destruct (decide (x ∈ U)) as [HU|HU].
    + rewrite IH, elem_of_cons. split.
      * intros [? ?]. split; [by right|done].
      * intros [[->|?] ?]; [done|by split].
    + rewrite !elem_of_cons, IH, elem_of_union, elem_of_singleton. split.
      * intros [->|[? Hn]]; [split; [by left|done]|].
        split; [by right|]. intros ?. apply Hn. by right.
      * intros [[->|?] Hn]; [by left|].
        destruct (decide (s = x)) as [->|Hne]; [by left|right].
        split; [done|]. intros [?|?]; done.
Qed.

Lemma first_seen_NoDup l : ∀ U, NoDup (first_seen U l).
Proof.
  induction l as [|x l IH]; intros U; cbn; [constructor|].
  destruct (decide (x ∈ U)); [apply IH|].
  constructor; [|apply IH].
  rewrite first_seen_elem, elem_of_union, elem_of_singleton. tauto.
Qed.

Lemma first_seen_sublist l : ∀ U, first_seen U l `sublist_of` l.
Proof.
  induction l as [|x l IH]; intros U; cbn; [done|].
  destruct (decide (x ∈ U)); [by apply sublist_cons|by apply sublist_skip].
Qed.

(** ** Runs of the generator *)

Lemma advance_prepend w before tail k :
  schedulable w →
  futureChainSymbolSelector (self w) (utc w) = prepend before tail →
  Forall is_future before →
  advance (length (first_seen ∅ before) + S k) w
  = let r := iterate (S k) (Suspended (list_to_set before) tail)
                     (chains (first_seen ∅ before) (started w)).2 in
    {| universes := (chains (first_seen ∅ before) (started w)).1 ++ universes r;
       error := error r; generator := generator r; world := world r |}.
Proof.
  intros Hs Hsel Hall. unfold advance. cbn [CreateUniverses fst snd].
  rewrite Nat.add_succ_r, iterate_Created, Hsel, <- Nat.add_succ_r by done.
  rewrite iterate_prepend by done. by rewrite (right_id_L ∅ (∪)).
Qed.

Lemma chains_self l : ∀ w,
  self (chains l w).2 = self w ∧ utc (chains l w).2 = utc w.
Proof.
  induction l as [|s l IH]; intros w; cbn; [done|].
  destruct (CreateFutureChain s w) as [[u|e] w'] eqn:Hc;
    apply CreateFutureChain_extends in Hc as (_ & Hs & Hu); [|done].
  destruct (IH w') as (Hs' & Hu'). destruct (chains l w') as [us w'']. cbn in *.
  split; congruence.
Qed.







(** ** Chains resolved one after the other *)

Lemma chains_positions l : ∀ w,
  Forall is_future l →
  Forall2 (λ s u, position (canonical s) (keys (chains l w).2) = Some (Future u))
          l (chains l w).1.
Proof.
  induction l as [|s l IH]; intros w Hl; cbn; [constructor|].
  apply Forall_cons in Hl as [Hs Hl].
  destruct (CreateFutureChain_Future s w Hs)
    as (u & w' & Hc & _ & _ & _ & Hpos & _ & _).
  rewrite Hc. specialize (IH w' Hl).
  destruct (chains_future l w' Hl) as (_ & _ & ([k Hk] & _)).
  destruct (chains l w') as [us w'']. cbn in *.
  constructor; [|done]. rewrite Hk. by apply position_app_l.
Qed.

Lemma chains_registered l : ∀ w,
  Forall is_future l →
  (∀ s, s ∈ l → canonical s ∈ keys w) →
  keys (chains l w).2 = keys w ∧ configs (chains l w).2 = configs w.
Proof.
  induction l as [|s l IH]; intros w Hl Hreg; cbn; [done|].
  apply Forall_cons in Hl as [Hs Hl].
  destruct (CreateFutureChain_Future s w Hs)
    as (u & w' & Hc & _ & _ & _ & _ & _ & Hcase).
  rewrite Hc.
  destruct Hcase as [(_ & Hk & Hcfg & _)|(Hnot & _)].
  2:{ destruct Hnot. apply Hreg. by left. }
  destruct (IH w' Hl) as (Hk' & Hcfg').
  { intros x Hx. rewrite Hk. apply Hreg. by right. }
  destruct (chains l w') as [us w'']. cbn in *. split; congruence.
Qed.

Lemma chains_registers l : ∀ w,
  Forall is_future l → ∀ s, s ∈ l → canonical s ∈ keys (chains l w).2.
Proof.
  intros w Hl s Hs.
  pose proof (chains_positions l w Hl) as HF.
  apply list_elem_of_lookup in Hs as [i Hi].
  destruct (Forall2_lookup_l _ _ _ _ _ HF Hi) as (u & _ & Hp).
  apply position_Some in Hp. by eapply list_elem_of_lookup_2.
Qed.

Lemma same_positions (f : Symbol.t → option nat) l :
  ∀ us1 us2,
    Forall2 (λ s u, f s = Some (Future u)) l us1 →
    Forall2 (λ s u, f s = Some (Future u)) l us2 →
    Future <$> us1 = Future <$> us2.
Proof.
  induction l as [|s l IH]; intros us1 us2 H1 H2.
  - apply Forall2_nil_inv_l in H1, H2. by subst.
  - apply Forall2_cons_inv_l in H1 as (u1 & r1 & Hu1 & Hr1 & ->).
    apply Forall2_cons_inv_l in H2 as (u2 & r2 & Hu2 & Hr2 & ->).
    cbn. f_equal; [congruence|by apply IH].
Qed.

(** ** Whole refresh cycles *)

(** X1: when the selector returns future symbols, at an engine time where
    line 46 does not overflow, a full iteration ends normally and yields one
    universe per distinct symbol returned, in the order of first occurrence,
    each for the canonical form of its symbol; a symbol equal to an earlier
    one yields nothing. *)
Theorem X1_one_universe_per_distinct_symbol (w : World) (symbols : list Symbol.t) (k : nat) :
  schedulable w →
  futureChainSymbolSelector (self w) (utc w) = returning symbols →
  Forall is_future symbols →
  let seen := first_seen ∅ symbols in
  let r := advance (length seen + S k) w in
  error r = None
  ∧ generator r = Finished
  ∧ universe_symbol (world r) <$> universes r = Some ∘ canonical <$> seen
  ∧ NoDup seen
  ∧ seen `sublist_of` symbols
  ∧ (∀ s, s ∈ seen ↔ s ∈ symbols).
Proof.
  intros Hs Hsel Hall seen r.
  destruct (CreateUniverses_first_seen w symbols k Hs Hsel Hall) as (He & Hg & Hu).
  split_and!; try done.
  - apply first_seen_NoDup.
  - apply first_seen_sublist.
  - intros s. unfold seen. rewrite first_seen_elem.
    split; [by intros [? _]|]. intros ?. split; [done|apply not_elem_of_empty].
Qed.

Lemma X1_one_universe_per_distinct_symbol_witness :
  let r := advance 3 (fresh_world one_day
                        (λ _, returning [future_contract "ES" 20251219;
                                         future_contract "NQ" 20251219;
                                         future_contract "ES" 20251219]) 1000) in
  error r = None
  ∧ universe_symbol (world r) <$> universes r
    = [Some (future_chain "ES"); Some (future_chain "NQ")].
Proof.
  destruct (X1_one_universe_per_distinct_symbol
              (fresh_world one_day
                 (λ _, returning [future_contract "ES" 20251219;
                                  future_contract "NQ" 20251219;
                                  future_contract "ES" 20251219]) 1000)
              [future_contract "ES" 20251219; future_contract "NQ" 20251219;
               future_contract "ES" 20251219] 0)
    as (He & _ & Hu & _).
  - by vm_compute.
  - reflexivity.
  - repeat constructor.
  - split; [exact He|exact Hu].
Defined.

(** X2: when the selector returns nothing, at an engine time where line 46
    does not overflow, the first [next] ends the iteration: no universe, no
    exception, registry and configurations untouched; the schedule update
    and the selector call are the only effects. *)
Theorem X2_empty_selection_only_advances_the_schedule (w : World) (k : nat) :
  schedulable w →
  futureChainSymbolSelector (self w) (utc w) = Exhausted →
  let r := advance (S k) w in
  universes r = [] ∧ error r = None ∧ generator r = Finished
  ∧ registry (world r) = registry w ∧ configs (world r) = configs w
  ∧ nextRefreshTimeUtc (self (world r)) = utc w + refreshInterval (self w)
  ∧ trace (world r)
    = trace w ++ [SetNextRefreshTimeUtc (utc w + refreshInterval (self w));
                  SelectorCalled (utc w)].
Proof.
  intros Hs Hsel r. subst r. unfold advance. cbn [CreateUniverses fst snd].
  rewrite iterate_Created, Hsel by done. cbn.
  split_and!; try done. by rewrite <- app_assoc.
Qed.

Lemma X2_empty_selection_only_advances_the_schedule_witness :
  let r := advance 1 (fresh_world one_day (λ _, Exhausted) 1000) in
  universes r = [] ∧ error r = None
  ∧ nextRefreshTimeUtc (self (world r)) = 1000 + one_day.
Proof.
  destruct (X2_empty_selection_only_advances_the_schedule
              (fresh_world one_day (λ _, Exhausted) 1000) 0)
    as (Hu & He & _ & _ & _ & Hn & _).
  - by vm_compute.
  - reflexivity.
  - split_and!; [exact Hu|exact He|exact Hn].
Defined.

(** X3: when the selector's iterable raises after some future symbols, at
    an engine time where line 46 does not overflow, the iteration yields the
    universes of the distinct symbols before the exception, then ends with
    that very exception; the schedule update of line 46 stands. *)
Theorem X3_selector_exception_comes_out_unchanged
    (w : World) (before : list Symbol.t) (e : Exception) (k : nat) :
  schedulable w →
  futureChainSymbolSelector (self w) (utc w) = prepend before (Fails e) →
  Forall is_future before →
  let r := advance (length (first_seen ∅ before) + S k) w in
  error r = Some e
  ∧ generator r = Finished
  ∧ universe_symbol (world r) <$> universes r
    = Some ∘ canonical <$> first_seen ∅ before
  ∧ nextRefreshTimeUtc (self (world r)) = utc w + refreshInterval (self w).
Proof.
  intros Hs Hsel Hall r. subst r.
  rewrite advance_prepend with (tail := Fails e) by done.
  pose proof (chains_future (first_seen ∅ before) (started w)
                (first_seen_future _ _ Hall)) as (_ & Hsym & _).
  destruct (chains_self (first_seen ∅ before) (started w)) as (Hself & _).
  cbn. rewrite !app_nil_r. split_and!; try done. by rewrite Hself.
Qed.

Lemma X3_selector_exception_comes_out_unchanged_witness :
  let r := advance 2 (fresh_world one_day
                        (λ _, prepend [future_contract "ES" 20251219]
                                      (Fails (OtherError "feed down"))) 1000) in
  error r = Some (OtherError "feed down")
  ∧ universe_symbol (world r) <$> universes r = [Some (future_chain "ES")].
Proof.
  destruct (X3_selector_exception_comes_out_unchanged
              (fresh_world one_day
                 (λ _, prepend [future_contract "ES" 20251219]
                               (Fails (OtherError "feed down"))) 1000)
              [future_contract "ES" 20251219] (OtherError "feed down") 0)
    as (He & _ & Hu & _).
  - by vm_compute.
  - reflexivity.
  - repeat constructor.
  - split; [exact He|exact Hu].
Defined.




(** X12: a refresh cycle followed, at any later engine time, by a cycle in
    which the selector returns the same symbols, line 46 overflowing in
    neither: the second cycle yields universes of the same security
    objects, creates no security and no configuration, and moves the
    schedule to the new time plus the interval. *)
Theorem X12_later_cycle_reuses_securities
    (w : World) (symbols : list Symbol.t) (t2 : Z) (k k' : nat) :
  schedulable w →
  is_datetime (t2 + refreshInterval (self w)) →
  futureChainSymbolSelector (self w) (utc w) = returning symbols →
  futureChainSymbolSelector (self w) t2 = returning symbols →
  Forall is_future symbols →
  let n := length (first_seen ∅ symbols) in
  let r1 := advance (n + S k) w in
  let w2 := with_algorithm (at_time t2 (algorithm (world r1))) (world r1) in
  let r2 := advance (n + S k') w2 in
  Future <$> universes r2 = Future <$> universes r1
  ∧ keys (world r2) = keys (world r1)
  ∧ configs (world r2) = configs (world r1)
  ∧ nextRefreshTimeUtc (self (world r2)) = t2 + refreshInterval (self w).
Proof.
  intros Hs1 Hs2 Hsel1 Hsel2 Hall n r1 w2 r2.
  set (seen := first_seen ∅ symbols) in *.
  assert (Hseen : Forall is_future seen) by by apply first_seen_future.
  rewrite returning_prepend in Hsel1, Hsel2.
  assert (Hr1 : r1 = {| universes := (chains seen (started w)).1; error := None;
                        generator := Finished; world := (chains seen (started w)).2 |}).
  { unfold r1, n, seen. rewrite advance_prepend with (tail := Exhausted) by done.
    cbn. by rewrite app_nil_r. }
  destruct (chains_self seen (started w)) as (Hself1 & _).
  assert (Hself2 : futureChainSymbolSelector (self w2) = futureChainSymbolSelector (self w)
                   ∧ refreshInterval (self w2) = refreshInterval (self w)).
  { unfold w2. rewrite Hr1. cbn. by rewrite Hself1. }
  destruct Hself2 as (Hsel & Hint).
  assert (Hutc2 : utc w2 = t2) by done.
  assert (Hsched2 : schedulable w2).
  { unfold schedulable, due. by rewrite Hint, Hutc2. }
  assert (Hr2 : r2 = {| universes := (chains seen (started w2)).1; error := None;
                        generator := Finished; world := (chains seen (started w2)).2 |}).
  { unfold r2, n, seen. rewrite advance_prepend with (tail := Exhausted).
    - cbn. by rewrite app_nil_r.
    - done.
    - by rewrite Hsel, Hutc2.
    - done. }
  assert (Hk2 : keys (started w2) = keys (world r1)) by done.
  destruct (chains_registered seen (started w2) Hseen) as (Hkeys & Hcfgs).
  { intros s Hs. rewrite Hk2, Hr1. cbn. by apply chains_registers. }
  rewrite Hr2. cbn. split_and!.
  - rewrite Hr1. cbn.
    apply (same_positions (λ s, position (canonical s) (keys (world r1))) seen).
    + rewrite <- Hk2, <- Hkeys. by apply chains_positions.
    + rewrite Hr1. cbn. by apply chains_positions.
  - by rewrite Hkeys.
  - by rewrite Hcfgs.
  - destruct (chains_self seen (started w2)) as (-> & _).
    change (utc w2 + refreshInterval (self w2) = t2 + refreshInterval (self w)).
    by rewrite Hint, Hutc2.
Qed.

Lemma X12_later_cycle_reuses_securities_witness :
  Future <$> universes
    (advance 3 (with_algorithm
                  (at_time (1000 + one_day) (algorithm (world (advance 3 two_chains_world))))
                  (world (advance 3 two_chains_world))))
  = Future <$> universes (advance 3 two_chains_world).
Proof.
  apply (X12_later_cycle_reuses_securities two_chains_world
           [future_contract "ES" 20251219; future_contract "NQ" 20251219]
           (1000 + one_day) 0 0).
  - by vm_compute.
  - by vm_compute.
  - reflexivity.
  - reflexivity.
  - repeat constructor.
Defined.
